(** * ZipfAccelerator (zipf.h): a shallow embedding and its properties

    The class [ZipfAccelerator] biases the logits of a language model.  This
    file embeds its member functions as Rocq functions over an explicit
    object state and proves (or refutes) properties of them.

    Conventions of the embedding:
    - [int] and [llama_token] (a 32-bit signed integer) are [Z]; where the
      source does arithmetic on them the two's complement wrap-around is
      written out with [wrap_int].
    - [float] is IEEE 754 binary32, as [spec_float] with [prec = 24] and
      [emax = 128]; [+ - * /] and [<] are the correctly rounded operations
      of the Standard Library's [SpecFloat].
    - [std::unordered_set<llama_token>] is [gset Z]; a range-for over such a
      set visits [elements s].
    - [std::vector<float>] and the [float*] logit buffer are [list float32],
      read with [!!] and written in place with [alter].
    - [std::pow], [std::log] and [std::sort] are library functions: they are
      parameters of the development, [std::sort] with its postcondition. *)

From Stdlib Require Import ZArith Lia Bool List Permutation.
From Stdlib Require Import Strings.String Strings.Ascii.
From Stdlib Require Import Floats.SpecFloat.
From stdpp Require Import gmap list.

Local Open Scope Z_scope.

(** ** Machine integers *)

Definition int_min : Z := - 2 ^ 31.
Definition int_max : Z := 2 ^ 31 - 1.

(** The value an [int] holds after an arithmetic result [z]. *)
Definition wrap_int (z : Z) : Z := (z + 2 ^ 31) mod 2 ^ 32 - 2 ^ 31.

(** ** binary32 floating point *)

Module F32.

Definition prec : Z := 24.
Definition emax : Z := 128.

Definition add : spec_float -> spec_float -> spec_float := SFadd prec emax.
Definition sub : spec_float -> spec_float -> spec_float := SFsub prec emax.
Definition mul : spec_float -> spec_float -> spec_float := SFmul prec emax.
Definition div : spec_float -> spec_float -> spec_float := SFdiv prec emax.
Definition ltb : spec_float -> spec_float -> bool := SFltb.
Definition abs : spec_float -> spec_float := SFabs.

(** Conversion of an integer, [(float)n], rounding to nearest even. *)
Definition of_int (n : Z) : spec_float := binary_normalize prec emax n 0 false.

(** The decimal literal [num/den] with suffix [f]: numerator and
    denominator are exact in binary32 for the literals of the source, so
    the correctly rounded quotient is the binary32 value nearest to the
    decimal. *)
Definition lit (num den : Z) : spec_float := div (of_int num) (of_int den).

Definition zero : spec_float := S754_zero false.
Definition one : spec_float := Eval vm_compute in of_int 1.
Definition two : spec_float := Eval vm_compute in of_int 2.
Definition c0_1 : spec_float := Eval vm_compute in lit 1 10.
Definition c0_2 : spec_float := Eval vm_compute in lit 2 10.
Definition c0_3 : spec_float := Eval vm_compute in lit 3 10.
Definition c0_4 : spec_float := Eval vm_compute in lit 4 10.
Definition c0_5 : spec_float := Eval vm_compute in lit 5 10.
Definition c0_6 : spec_float := Eval vm_compute in lit 6 10.
Definition c0_7 : spec_float := Eval vm_compute in lit 7 10.
Definition c0_9 : spec_float := Eval vm_compute in lit 9 10.
Definition c1_1 : spec_float := Eval vm_compute in lit 11 10.
Definition c1_5 : spec_float := Eval vm_compute in lit 15 10.
Definition c20 : spec_float := Eval vm_compute in of_int 20.
Definition c50 : spec_float := Eval vm_compute in of_int 50.

(** [std::clamp(v, lo, hi)]: [(v < lo) ? lo : (hi < v) ? hi : v]. *)
Definition clamp (v lo hi : spec_float) : spec_float :=
  if ltb v lo then lo else if ltb hi v then hi else v.

End F32.

Abbreviation float32 := spec_float.

Global Instance spec_float_eq_dec : EqDecision spec_float.
Proof. solve_decision. Defined.

(** ** Strings: the [std::string] operations the class uses *)

Local Open Scope string_scope.

(** The quotation mark, code 34. *)
Definition dquote : ascii := ascii_of_nat 34.

(** The character set handed to [find_first_of] at the punctuation test:
    full stop, exclamation mark, question mark, quotation mark, apostrophe. *)
Definition punct_chars : list ascii :=
  ["."%char; "!"%char; "?"%char; dquote; "'"%char].

(** [::tolower] in the C locale: only [A]..[Z] change. *)
Definition tolower (c : ascii) : ascii :=
  let n := nat_of_ascii c in
  if ((65 <=? n)%nat && (n <=? 90)%nat)%bool then ascii_of_nat (n + 32) else c.

(** [to_lower]: [std::transform] with [::tolower] over a copy. *)
Fixpoint to_lower (s : string) : string :=
  match s with
  | EmptyString => EmptyString
  | String c s' => String (tolower c) (to_lower s')
  end.

Fixpoint starts_with (kw s : string) : bool :=
  match kw, s with
  | EmptyString, _ => true
  | String a kw', String b s' => if Ascii.eqb a b then starts_with kw' s' else false
  | String _ _, EmptyString => false
  end.

(** [s.find(kw)] from offset [pos] of the original string: the first
    position where [kw] occurs, [None] for [npos]. *)
Fixpoint find_from (kw s : string) (pos : nat) : option nat :=
  if starts_with kw s then Some pos
  else match s with
       | EmptyString => None
       | String _ s' => find_from kw s' (S pos)
       end.

Definition str_find (s kw : string) : option nat := find_from kw s 0.

(** [s.find(c)] for a character. *)
Fixpoint find_char_from (c : ascii) (s : string) (pos : nat) : option nat :=
  match s with
  | EmptyString => None
  | String a s' => if Ascii.eqb a c then Some pos else find_char_from c s' (S pos)
  end.

Definition str_find_char (s : string) (c : ascii) : option nat :=
  find_char_from c s 0.

(** [s.find_first_of(chars)]. *)
Fixpoint find_first_of_from (chars : list ascii) (s : string) (pos : nat) : option nat :=
  match s with
  | EmptyString => None
  | String a s' =>
      if existsb (Ascii.eqb a) chars then Some pos
      else find_first_of_from chars s' (S pos)
  end.

Definition str_find_first_of (s : string) (chars : list ascii) : option nat :=
  find_first_of_from chars s 0.

(** [x != std::string::npos]. *)
Definition found (r : option nat) : bool :=
  match r with Some _ => true | None => false end.

(** [kw] occurs in [s]: the declarative reading of [s.find(kw) != npos]. *)
Definition occurs_in (kw s : string) : Prop :=
  ∃ pre post, s = String.append pre (String.append kw post).

(** ** The vocabulary interface ([llama_vocab]) *)

Record llama_vocab := {
  n_tokens : Z;                       (* uint32_t n_tokens() const *)
  token_get_score : Z -> float32;     (* float token_get_score(llama_token) *)
  token_get_text : Z -> string        (* const char * token_get_text(llama_token) *)
}.

(** ** The object state *)

Record ConversationState := {
  turn_count : Z;
  avg_response_length : Z;
  engagement_score : float32;
  recent_lengths : list Z;
  turn_frequencies : gmap Z float32
}.

Record DynamicParams := {
  complexity_factor : float32;
  engagement_modifier : float32;
  pattern_strength : float32
}.

Record ZipfAccelerator := {
  base_logit_bias : list float32;
  common_tokens : gset Z;
  rare_tokens : gset Z;
  punctuation : gset Z;
  dialogue_tokens : gset Z;
  current_role_tokens : gset Z;
  current_mood_tokens : gset Z;
  vocab_size : Z;
  initialized : bool;
  conv_state : ConversationState;
  params : DynamicParams;
  token_flags : list Z
}.

Definition IS_COMMON : Z := 1.
Definition IS_RARE : Z := 2.
Definition IS_PUNCT : Z := 4.
Definition IS_DIALOGUE : Z := 8.

(** The default member initializers.  [vocab_size] has none in the source
    (its value is indeterminate until [initialize] runs); the parameter
    [vs] stands for whatever it holds. *)
Definition default_conv_state : ConversationState :=
  {| turn_count := 0; avg_response_length := 0; engagement_score := F32.zero;
     recent_lengths := []; turn_frequencies := ∅ |}.

Definition default_params : DynamicParams :=
  {| complexity_factor := F32.one; engagement_modifier := F32.one;
     pattern_strength := F32.one |}.

Definition default_accelerator (vs : Z) : ZipfAccelerator :=
  {| base_logit_bias := []; common_tokens := ∅; rare_tokens := ∅;
     punctuation := ∅; dialogue_tokens := ∅; current_role_tokens := ∅;
     current_mood_tokens := ∅; vocab_size := vs; initialized := false;
     conv_state := default_conv_state; params := default_params;
     token_flags := [] |}.

(** Member-wise updates of the object. *)
Definition set_tables (bias : list float32) (common rare punct dialogue : gset Z)
    (z : ZipfAccelerator) : ZipfAccelerator :=
  {| base_logit_bias := bias; common_tokens := common; rare_tokens := rare;
     punctuation := punct; dialogue_tokens := dialogue;
     current_role_tokens := current_role_tokens z;
     current_mood_tokens := current_mood_tokens z;
     vocab_size := vocab_size z; initialized := initialized z;
     conv_state := conv_state z; params := params z;
     token_flags := token_flags z |}.

Definition set_vocab_size (vs : Z) (z : ZipfAccelerator) : ZipfAccelerator :=
  {| base_logit_bias := base_logit_bias z; common_tokens := common_tokens z;
     rare_tokens := rare_tokens z; punctuation := punctuation z;
     dialogue_tokens := dialogue_tokens z;
     current_role_tokens := current_role_tokens z;
     current_mood_tokens := current_mood_tokens z;
     vocab_size := vs; initialized := initialized z;
     conv_state := conv_state z; params := params z;
     token_flags := token_flags z |}.

Definition set_flags_initialized (flags : list Z) (z : ZipfAccelerator) : ZipfAccelerator :=
  {| base_logit_bias := base_logit_bias z; common_tokens := common_tokens z;
     rare_tokens := rare_tokens z; punctuation := punctuation z;
     dialogue_tokens := dialogue_tokens z;
     current_role_tokens := current_role_tokens z;
     current_mood_tokens := current_mood_tokens z;
     vocab_size := vocab_size z; initialized := true;
     conv_state := conv_state z; params := params z;
     token_flags := flags |}.

Definition set_context (role mood : gset Z) (cs : ConversationState)
    (p : DynamicParams) (z : ZipfAccelerator) : ZipfAccelerator :=
  {| base_logit_bias := base_logit_bias z; common_tokens := common_tokens z;
     rare_tokens := rare_tokens z; punctuation := punctuation z;
     dialogue_tokens := dialogue_tokens z;
     current_role_tokens := role; current_mood_tokens := mood;
     vocab_size := vocab_size z; initialized := initialized z;
     conv_state := cs; params := p;
     token_flags := token_flags z |}.

(** ** [std::sort] with the comparator of [initialize] *)

(** The lambda [a.second > b.second]. *)
Definition score_gt (a b : Z * float32) : bool := F32.ltb b.2 a.2.

(** What [std::sort(first, last, comp)] guarantees of the range it leaves
    when [comp] is a strict weak ordering on the elements: the same
    elements, and no later element ordered before an earlier one.  The
    order of equivalent elements is not part of the guarantee. *)
Definition std_sort_post (input output : list (Z * float32)) : Prop :=
  output ≡ₚ input ∧
  ∀ (i j : nat) a b, (i < j)%nat → output !! i = Some a → output !! j = Some b →
    score_gt b a = false.

(** The vector [token_scores] before the sort. *)
Definition token_scores (vocab : llama_vocab) (vs : Z) : list (Z * float32) :=
  (λ id, (id, token_get_score vocab id)) <$> seqZ 0 vs.

(** ** Keyword tables *)

Definition role_map : list (string * list string) :=
  [ ("guard", ["guard"; "watch"; "protect"; "duty"; "patrol"; "secure"; "defend"]);
    ("tavernkeeper", ["tavern"; "ale"; "drink"; "brew"; "welcome"; "inn"; "guest"; "room"]);
    ("scribe", ["scroll"; "write"; "record"; "ink"; "quill"; "document"; "archive"; "knowledge"]);
    ("merchant", ["gold"; "coin"; "trade"; "sell"; "buy"; "price"; "goods"; "wares"]);
    ("knight", ["honor"; "sword"; "shield"; "oath"; "noble"; "quest"; "chivalry"]);
    ("wizard", ["magic"; "spell"; "arcane"; "tome"; "staff"; "enchant"; "ritual"]) ].

Definition mood_map : list (string * list string) :=
  [ ("friendly", ["pleased"; "welcome"; "glad"; "happy"; "kind"; "warm"; "cheerful"]);
    ("rude", ["annoyed"; "irritated"; "bah"; "hmph"; "whatever"; "fool"; "waste"]);
    ("suspicious", ["wary"; "careful"; "suspicious"; "doubt"; "trust"; "watch"; "unsure"]);
    ("deferential", ["sir"; "madam"; "honor"; "respect"; "please"; "apologize"; "forgive"]);
    ("stoic", ["indeed"; "understood"; "very well"; "quite"; "certainly"]) ].

Local Close Scope string_scope.

(** [m.find(key)] on an [unordered_map] built from an initializer list
    with distinct keys. *)
Fixpoint map_find (key : string) (m : list (string * list string)) : option (list string) :=
  match m with
  | [] => None
  | (k, v) :: m' => if String.eqb k key then Some v else map_find key m'
  end.

Definition get_role_keywords (role : string) : list string :=
  match map_find role role_map with Some v => v | None => [] end.

Definition get_mood_keywords (mood : string) : list string :=
  match map_find mood mood_map with Some v => v | None => [] end.

(** The inner keyword loop of [update_context]: true when some keyword is
    found in [lower_text] (the loop inserts and breaks at the first). *)
Definition keyword_match (keywords : list string) (lower_text : string) : bool :=
  existsb (λ keyword, found (str_find lower_text keyword)) keywords.

(** One iteration of the token loop of [update_context]. *)
Definition match_token (vocab : llama_vocab) (role_keywords mood_keywords : list string)
    (sets : gset Z * gset Z) (id : Z) : gset Z * gset Z :=
  let lower_text := to_lower (token_get_text vocab id) in
  (if keyword_match role_keywords lower_text then {[id]} ∪ sets.1 else sets.1,
   if keyword_match mood_keywords lower_text then {[id]} ∪ sets.2 else sets.2).

(** ** Conversation state *)

(** [std::accumulate(begin, end, 0.0f)] over the deque of [int]. *)
Definition accumulate (lengths : list Z) : float32 :=
  fold_left (λ acc x, F32.add acc (F32.of_int x)) lengths F32.zero.

Definition update_complexity_factor (cs : ConversationState) (p : DynamicParams)
    : DynamicParams :=
  let avg_length :=
    match recent_lengths cs with
    | [] => F32.zero
    | _ => F32.div (accumulate (recent_lengths cs))
                   (F32.of_int (Z.of_nat (length (recent_lengths cs))))
    end in
  let cf :=
    if F32.ltb avg_length F32.c20 then F32.mul (complexity_factor p) F32.c0_9
    else if F32.ltb F32.c50 avg_length then F32.mul (complexity_factor p) F32.c1_1
    else complexity_factor p in
  {| complexity_factor := F32.clamp cf F32.c0_5 F32.two;
     engagement_modifier := engagement_modifier p;
     pattern_strength := pattern_strength p |}.

(** The conversation-state update at the end of [update_context]:
    [turn_count++] and the [pop_front] under [size() >= 5]. *)
Definition update_conv_state (cs : ConversationState) : ConversationState :=
  {| turn_count := wrap_int (turn_count cs + 1);
     avg_response_length := avg_response_length cs;
     engagement_score := engagement_score cs;
     recent_lengths :=
       if (5 <=? length (recent_lengths cs))%nat then tail (recent_lengths cs)
       else recent_lengths cs;
     turn_frequencies := turn_frequencies cs |}.

Definition update_context (role mood : string) (vocab : llama_vocab)
    (z : ZipfAccelerator) : ZipfAccelerator :=
  let role_keywords := get_role_keywords role in
  let mood_keywords := get_mood_keywords mood in
  let sets := fold_left (match_token vocab role_keywords mood_keywords)
                        (seqZ 0 (vocab_size z)) (∅, ∅) in
  let cs := update_conv_state (conv_state z) in
  set_context sets.1 sets.2 cs (update_complexity_factor cs (params z)) z.

(** ** The logit buffer *)

(** [buffer[token] = f(buffer[token])], for the logit buffer and for
    [token_flags].  A negative index or one past the end is outside the
    array in the source; the model leaves the array as it is there. *)
Definition upd {A : Type} (f : A → A) (buffer : list A) (token : Z) : list A :=
  if 0 <=? token then alter f (Z.to_nat token) buffer else buffer.

Definition suppress_dialogue_enders (z : ZipfAccelerator) (logits : list float32)
    : list float32 :=
  fold_left (λ lg token,
               if decide (token ∈ punctuation z)
               then upd (λ x, F32.sub x F32.two) lg token else lg)
            (elements (dialogue_tokens z)) logits.

Definition boost_dialogue_enders (z : ZipfAccelerator) (logits : list float32)
    (boost : float32) : list float32 :=
  fold_left (upd (λ x, F32.add x boost)) (elements (dialogue_tokens z)) logits.

Definition apply_conversation_patterns (z : ZipfAccelerator) (logits : list float32)
    : list float32 :=
  fold_left (λ lg (tf : Z * float32),
               if F32.ltb F32.c0_1 tf.2
               then upd (λ x, F32.add x (F32.mul F32.c0_2 (pattern_strength (params z))))
                        lg tf.1
               else lg)
            (map_to_list (turn_frequencies (conv_state z))) logits.

Definition MAX_RESPONSE_LENGTH : Z := 200.

Definition completion_ratio (min_tokens_remaining : Z) : float32 :=
  F32.sub F32.one
          (F32.div (F32.of_int min_tokens_remaining) (F32.of_int MAX_RESPONSE_LENGTH)).

Definition dialogue_boost (z : ZipfAccelerator) : float32 :=
  F32.mul F32.c0_4 (pattern_strength (params z)).

(** The block under the comment "Dynamic dialogue flow". *)
Definition dialogue_flow (z : ZipfAccelerator) (logits : list float32)
    (min_tokens_remaining : Z) : list float32 :=
  if F32.ltb (completion_ratio min_tokens_remaining) F32.c0_6
  then suppress_dialogue_enders z logits
  else boost_dialogue_enders z logits
         (F32.mul (dialogue_boost z) (completion_ratio min_tokens_remaining)).

Definition role_boost (z : ZipfAccelerator) (context_length : Z) : float32 :=
  let b := F32.mul F32.c0_5 (engagement_modifier (params z)) in
  if context_length <? 10 then F32.mul b F32.c1_5 else b.

Definition mood_boost (z : ZipfAccelerator) (context_length : Z) : float32 :=
  let b := F32.mul F32.c0_3 (engagement_modifier (params z)) in
  if context_length <? 10 then F32.mul b F32.c1_5 else b.

(** The first loop: [logits[i] += base_logit_bias[i] * complexity_factor]. *)
Definition apply_base_bias (z : ZipfAccelerator) (logits : list float32)
    : list float32 :=
  fold_left (λ lg i,
               match base_logit_bias z !! Z.to_nat i with
               | Some b => upd (λ x, F32.add x (F32.mul b (complexity_factor (params z)))) lg i
               | None => lg
               end)
            (seqZ 0 (vocab_size z)) logits.

Definition accelerate_logits (z : ZipfAccelerator) (logits : list float32)
    (context_length min_tokens_remaining : Z) : list float32 :=
  if negb (initialized z) then logits
  else
    let lg1 := apply_base_bias z logits in
    let lg2 := fold_left (upd (λ x, F32.add x (role_boost z context_length)))
                         (elements (current_role_tokens z)) lg1 in
    let lg3 := fold_left (upd (λ x, F32.add x (mood_boost z context_length)))
                         (elements (current_mood_tokens z)) lg2 in
    let lg4 := dialogue_flow z lg3 min_tokens_remaining in
    apply_conversation_patterns z lg4.

Definition is_contextually_appropriate (z : ZipfAccelerator) (token : Z) : bool :=
  if decide (token ∈ rare_tokens z) then false
  else if decide (token ∈ current_role_tokens z ∨ token ∈ current_mood_tokens z) then true
  else bool_decide (token ∈ common_tokens z).

(** ** [initialize] and [get_repetition_penalty]

    These two call [std::pow], [std::log] and [std::sort]; the three
    library functions are the variables of the section. *)

Section Library.

Variable powf : float32 → float32 → float32.
Variable logf : float32 → float32.
Variable std_sort : list (Z * float32) → list (Z * float32).

(** One iteration of the loop over ranks.  [sorted] is [token_scores]
    after the sort; a rank past its end does not occur when the sort
    returns a permutation, and the model skips it. *)
Definition categorize_token (vocab : llama_vocab) (common_cutoff rare_cutoff : Z)
    (sorted : list (Z * float32)) (z : ZipfAccelerator) (rank : Z)
    : ZipfAccelerator :=
  match sorted !! Z.to_nat rank with
  | None => z
  | Some entry =>
      let token := entry.1 in
      let token_text := token_get_text vocab token in
      let common := if rank <? common_cutoff
                    then {[token]} ∪ common_tokens z else common_tokens z in
      let rare := if rank >? rare_cutoff
                  then {[token]} ∪ rare_tokens z else rare_tokens z in
      let is_punct := found (str_find_first_of token_text punct_chars) in
      let punct := if is_punct then {[token]} ∪ punctuation z else punctuation z in
      let dialogue := if is_punct && found (str_find_char token_text dquote)
                      then {[token]} ∪ dialogue_tokens z else dialogue_tokens z in
      let zipf_factor :=
        F32.div F32.one (powf (F32.add (F32.of_int rank) F32.one) F32.c0_3) in
      let bias := if 0 <=? token
                  then <[Z.to_nat token := logf zipf_factor]> (base_logit_bias z)
                  else base_logit_bias z in
      set_tables bias common rare punct dialogue z
  end.

(** [token_flags[token] |= bit] for every token of a set. *)
Definition or_flags (bit : Z) (s : gset Z) (flags : list Z) : list Z :=
  fold_left (upd (λ f, Z.lor f bit)) (elements s) flags.

Definition initialize (vocab : llama_vocab) (z : ZipfAccelerator) : ZipfAccelerator :=
  let vs := wrap_int (n_tokens vocab) in
  let bias0 := resize (Z.to_nat vs) F32.zero (base_logit_bias z) in
  let sorted := std_sort (token_scores vocab vs) in
  let z0 := set_tables bias0 ∅ ∅ ∅ ∅ (set_vocab_size vs z) in
  let common_cutoff := Z.min 500 (vs ÷ 10) in
  let rare_cutoff := wrap_int (vs * 4) ÷ 5 in
  let z1 := fold_left (categorize_token vocab common_cutoff rare_cutoff sorted)
                      (seqZ 0 vs) z0 in
  let flags :=
    or_flags IS_DIALOGUE (dialogue_tokens z1)
      (or_flags IS_PUNCT (punctuation z1)
         (or_flags IS_RARE (rare_tokens z1)
            (or_flags IS_COMMON (common_tokens z1)
               (resize (Z.to_nat vs) 0 (token_flags z1))))) in
  set_flags_initialized flags z1.

(** The rank order: the token ids of [token_scores] after the sort
    (a local of [initialize]). *)
Definition rank_order (vocab : llama_vocab) : list Z :=
  (std_sort (token_scores vocab (wrap_int (n_tokens vocab)))).*1.


End Library.

(** ** Two sorting functions and concrete vocabularies

    [std::sort] is a parameter above.  The two functions here are sorting
    algorithms a library may use; both order by the comparator of
    [initialize] and differ only in where they leave tokens of equal
    score.  They serve as instances of the parameter. *)

(** Insertion from the back of the sorted prefix: [x] moves ahead of the
    elements it is ordered before, and stays behind an equal one. *)
Fixpoint insert_behind_equal (x : Z * float32) (l : list (Z * float32))
    : list (Z * float32) :=
  match l with
  | [] => [x]
  | y :: l' => if score_gt x y then x :: l else y :: insert_behind_equal x l'
  end.

Definition insertion_sort (l : list (Z * float32)) : list (Z * float32) :=
  fold_left (λ acc x, insert_behind_equal x acc) l [].


(** A decision procedure for the second half of [std_sort_post]. *)
Fixpoint no_inversion (l : list (Z * float32)) : bool :=
  match l with
  | [] => true
  | a :: l' => forallb (λ b, negb (score_gt b a)) l' && no_inversion l'
  end.

(** Every later element is strictly behind every earlier one. *)
Fixpoint strictly_descending (l : list (Z * float32)) : bool :=
  match l with
  | [] => true
  | a :: l' => forallb (λ b, score_gt a b) l' && strictly_descending l'
  end.

(** The vocabulary of 1000 tokens in which token [i] has score [1000 - i]. *)
Definition vocab1000 : llama_vocab :=
  {| n_tokens := 1000;
     token_get_score := λ i, F32.of_int (1000 - i);
     token_get_text := λ _, EmptyString |}.



(** A small vocabulary with texts: six tokens, scores descending. *)
Definition small_vocab : llama_vocab :=
  {| n_tokens := 6;
     token_get_score := λ i, F32.of_int (- i);
     token_get_text := λ i,
       match i with
       | 0 => "the"%string
       | 1 => " Guard"%string
       | 2 => String dquote EmptyString
       | 3 => "watchful"%string
       | 4 => "welcome!"%string
       | _ => "zx"%string
       end |}.

(** The flag byte that the four loops at the end of [initialize] build
    for a token, starting from 0. *)
Definition category_flags (z : ZipfAccelerator) (token : Z) : Z :=
  let f1 := if decide (token ∈ common_tokens z) then Z.lor 0 IS_COMMON else 0 in
  let f2 := if decide (token ∈ rare_tokens z) then Z.lor f1 IS_RARE else f1 in
  let f3 := if decide (token ∈ punctuation z) then Z.lor f2 IS_PUNCT else f2 in
  if decide (token ∈ dialogue_tokens z) then Z.lor f3 IS_DIALOGUE else f3.

(** [(flags & bit) != 0]. *)
Definition has_flag (flags bit : Z) : bool := negb (Z.land flags bit =? 0).

(** What one call of [accelerate_logits] on an initialized object does to
    the logit [x] of token [i]: the five additive steps in the order of
    the source, each applied when the token is in the range or set the
    step loops over. *)
Definition adjust (z : ZipfAccelerator) (context_length min_tokens_remaining : Z)
    (i : nat) (x : float32) : float32 :=
  let x1 :=
    match base_logit_bias z !! i with
    | Some b => if decide (Z.of_nat i < vocab_size z)
                then F32.add x (F32.mul b (complexity_factor (params z))) else x
    | None => x
    end in
  let x2 := if decide (Z.of_nat i ∈ current_role_tokens z)
            then F32.add x1 (role_boost z context_length) else x1 in
  let x3 := if decide (Z.of_nat i ∈ current_mood_tokens z)
            then F32.add x2 (mood_boost z context_length) else x2 in
  let x4 :=
    if F32.ltb (completion_ratio min_tokens_remaining) F32.c0_6
    then if decide (Z.of_nat i ∈ dialogue_tokens z ∧ Z.of_nat i ∈ punctuation z)
         then F32.sub x3 F32.two else x3
    else if decide (Z.of_nat i ∈ dialogue_tokens z)
         then F32.add x3 (F32.mul (dialogue_boost z) (completion_ratio min_tokens_remaining))
         else x3 in
  match turn_frequencies (conv_state z) !! Z.of_nat i with
  | Some freq => if F32.ltb F32.c0_1 freq
                 then F32.add x4 (F32.mul F32.c0_2 (pattern_strength (params z)))
                 else x4
  | None => x4
  end.

(** The size of the move of one logit, [|after - before|]. *)
Definition shift (before after : float32) : float32 :=
  F32.abs (F32.sub after before).

(** A vocabulary of one token, with text guard. *)
Definition guard_vocab : llama_vocab :=
  {| n_tokens := 1;
     token_get_score := λ _, F32.zero;
     token_get_text := λ _, "guard"%string |}.

(** The object after [initialize] and one [update_context] with role
    guard on [guard_vocab], when [std::pow(1, 0.3)] is 1 and [std::log(1)]
    is 0: bias 0 at the only rank, the token matched by the role, one turn
    counted. *)
Definition one_token_accelerator : ZipfAccelerator :=
  {| base_logit_bias := [F32.zero]; common_tokens := ∅; rare_tokens := ∅;
     punctuation := ∅; dialogue_tokens := ∅; current_role_tokens := {[0]};
     current_mood_tokens := ∅; vocab_size := 1; initialized := true;
     conv_state :=
       {| turn_count := 1; avg_response_length := 0; engagement_score := F32.zero;
          recent_lengths := []; turn_frequencies := ∅ |};
     params :=
       {| complexity_factor := F32.c0_9; engagement_modifier := F32.one;
          pattern_strength := F32.one |};
     token_flags := [0] |}.

(** The sum of the moves of all logits of a buffer. *)
Definition total_shift (before after : list float32) : float32 :=
  fold_left F32.add (zip_with shift before after) F32.zero.



(** A statement that holds whatever [std::pow] and [std::log] compute. *)
Definition for_all_libm
    (P : (float32 → float32 → float32) → (float32 → float32) → Prop) : Prop :=
  ∀ powf logf, P powf logf.

(** ** The writes of [initialize] to the bias table *)

(** The value [initialize] stores for the token of rank [rank]. *)
Definition rank_bias (powf : float32 → float32 → float32) (logf : float32 → float32)
    (rank : Z) : float32 :=
  logf (F32.div F32.one (powf (F32.add (F32.of_int rank) F32.one) F32.c0_3)).

(** The index written at rank [rank], and the write itself. *)
Definition bias_key (sorted : list (Z * float32)) (rank : Z) : Z :=
  match sorted !! Z.to_nat rank with Some e => e.1 | None => -1 end.

Definition bias_write (powf : float32 → float32 → float32) (logf : float32 → float32)
    (sorted : list (Z * float32)) (rank : Z) : option (float32 → float32) :=
  match sorted !! Z.to_nat rank with
  | Some e => Some (λ _, rank_bias powf logf rank)
  | None => None
  end.

(** What one iteration of the category loop does to the bias table. *)
Definition bias_step (powf : float32 → float32 → float32) (logf : float32 → float32)
    (vocab : llama_vocab) (cc rc : Z) (sorted : list (Z * float32))
    (lg : list float32) (rank : Z) : list float32 :=
  base_logit_bias
    (categorize_token powf logf vocab cc rc sorted
       (set_tables lg ∅ ∅ ∅ ∅ (default_accelerator 0)) rank).

(** The bits the four flag loops add to the byte of a token. *)
Definition category_mask (z : ZipfAccelerator) (token : Z) : Z :=
  Z.lor (Z.lor (Z.lor (if decide (token ∈ common_tokens z) then IS_COMMON else 0)
                      (if decide (token ∈ rare_tokens z) then IS_RARE else 0))
               (if decide (token ∈ punctuation z) then IS_PUNCT else 0))
        (if decide (token ∈ dialogue_tokens z) then IS_DIALOGUE else 0).

(** What [update_complexity_factor] does to the factor when the history
    of response lengths is empty: the branch for a short average. *)
Definition decay_step (c : float32) : float32 :=
  F32.clamp (F32.mul c F32.c0_9) F32.c0_5 F32.two.

(** ** States the member functions can reach *)

(** The objects that calls of [initialize] and [update_context] produce
    from a default-constructed one. *)
Inductive reachable (powf : float32 → float32 → float32) (logf : float32 → float32)
    (std_sort : list (Z * float32) → list (Z * float32)) : ZipfAccelerator → Prop :=
  | reach_default vs : reachable powf logf std_sort (default_accelerator vs)
  | reach_initialize vocab z :
      reachable powf logf std_sort z →
      reachable powf logf std_sort (initialize powf logf std_sort vocab z)
  | reach_update_context (role mood : string) vocab z :
      reachable powf logf std_sort z →
      reachable powf logf std_sort (update_context role mood vocab z).

(** A sequence of turns: one [update_context] per (role, mood, vocabulary). *)
Definition run_turns (calls : list (string * string * llama_vocab))
    (z : ZipfAccelerator) : ZipfAccelerator :=
  fold_left (λ z call, update_context call.1.1 call.1.2 call.2 z) calls z.

(** [c] occurs in [s]: the declarative reading of [s.find(c) != npos]. *)
Definition has_char (c : ascii) (s : string) : Prop :=
  ∃ pre post, s = String.append pre (String c post).

(** The size of the RARE band for a vocabulary of [n] tokens: the ranks
    above [n * 4 / 5]. *)
Definition rare_band (n : Z) : Z := n - 1 - n * 4 / 5.

(** ** binary64, for the one [double] comparison of zipfEngine.cpp *)

Module F64.

Definition prec : Z := 53.
Definition emax : Z := 1024.

Definition mul : spec_float -> spec_float -> spec_float := SFmul prec emax.
Definition div : spec_float -> spec_float -> spec_float := SFdiv prec emax.
Definition ltb : spec_float -> spec_float -> bool := SFltb.

(** Conversion of a [size_t]. *)
Definition of_int (n : Z) : spec_float := binary_normalize prec emax n 0 false.

(** The literal [0.7]. *)
Definition c0_7 : spec_float := Eval vm_compute in div (of_int 7) (of_int 10).

End F64.

(** ** zipfEngine.cpp: modes, profiles and the text helpers *)

Module Engine.

Local Open Scope string_scope.

Record PersonalityMode := {
  mode_name : string;
  prompt_modifier : string;
  min_tokens : Z;
  max_tokens : Z
}.

Definition ALL_PERSONALITY_MODES : list PersonalityMode :=
  [ {| mode_name := "friendly";
       prompt_modifier := "You respond with warmth, politeness, and helpfulness. Speak in complete sentences.";
       min_tokens := 15; max_tokens := 150 |};
    {| mode_name := "rude";
       prompt_modifier := "You respond curtly, with irritation, sarcasm, or disrespect. Keep responses brief but complete.";
       min_tokens := 8; max_tokens := 80 |};
    {| mode_name := "suspicious";
       prompt_modifier := "You respond with mistrust, guarded language, and evasiveness. Answer hesitantly.";
       min_tokens := 12; max_tokens := 120 |};
    {| mode_name := "deferential";
       prompt_modifier := "You are very respectful and submissive to the speaker. Use honorifics and speak humbly.";
       min_tokens := 20; max_tokens := 200 |};
    {| mode_name := "stoic";
       prompt_modifier := "You speak briefly with little emotion, but still provide complete thoughts.";
       min_tokens := 10; max_tokens := 60 |} ].

(** The loop of [get_mode_by_name]: the first mode with the name. *)
Fixpoint find_mode (name : string) (modes : list PersonalityMode) : option PersonalityMode :=
  match modes with
  | [] => None
  | m :: modes' => if String.eqb (mode_name m) name then Some m else find_mode name modes'
  end.

(** [get_mode_by_name]: the mode found, else [ALL_PERSONALITY_MODES[0]]
    (the table is not empty; the last argument of [nth] is never read). *)
Definition get_mode_by_name (name : string) : PersonalityMode :=
  match find_mode name ALL_PERSONALITY_MODES with
  | Some m => m
  | None =>
      nth 0 ALL_PERSONALITY_MODES
          {| mode_name := ""; prompt_modifier := ""; min_tokens := 0; max_tokens := 0 |}
  end.

Record NPCProfile := {
  name : string;
  base_prompt : string;
  allowed_modes : list string;
  background_info : string
}.

Definition NPCS : list NPCProfile :=
  [ {| name := "Krackle";
       base_prompt := "You are Krackle, the deadly front door guard to the Ramsel Dynasty. You are blunt, experienced, and have no time for nonsense. You've seen many adventurers come and go.";
       allowed_modes := ["friendly"; "rude"; "suspicious"];
       background_info := "A veteran guard who has protected the dynasty for decades. Wears battle-scarred armor and carries an ancient sword." |};
    {| name := "Mira";
       base_prompt := "You are Mira, a world-weary but kind tavernkeeper who welcomes all sorts but is slow to trust. You've heard countless stories from travelers.";
       allowed_modes := ["friendly"; "suspicious"; "stoic"];
       background_info := "Runs 'The Weary Traveler' tavern. Has graying hair and knowing eyes that have seen much of the world through her patrons." |};
    {| name := "Feylan";
       base_prompt := "You are Feylan, an anxious young court scribe. You are always deferential to those in authority and eager to help with your knowledge of court matters and records.";
       allowed_modes := ["deferential"; "friendly"; "stoic"];
       background_info := "A young scholar with ink-stained fingers and nervous habits. Knows the history and procedures of the royal court intimately." |} ].

Record GameState := {
  player_name : string;
  player_class : string;
  relationship : string;
  player_level : Z;
  recent_action : string
}.

(** The free function [to_lower] of zipfEngine.cpp: [std::tolower] over
    the characters read as [unsigned char]. *)
Fixpoint to_lower (s : string) : string :=
  match s with
  | EmptyString => EmptyString
  | String c s' => String (tolower c) (to_lower s')
  end.

(** [std::find(modes.begin(), modes.end(), m) != modes.end()]. *)
Definition mode_allowed (m : string) (modes : list string) : bool :=
  existsb (String.eqb m) modes.

(** [s.find(kw) != npos]. *)
Definition contains (s kw : string) : bool := found (str_find s kw).

(** [pick_mode_for_npc].  The last statement reads [allowed_modes[0]];
    on an empty vector that read is outside the vector, which is [None]
    here. *)
Definition pick_mode_for_npc (npc : NPCProfile) (state : GameState)
    (user_input : string) : option string :=
  let input_lc := to_lower (user_input ++ " " ++ recent_action state) in
  let allowed m := mode_allowed m (allowed_modes npc) in
  (* the statements after the relationship block *)
  let by_input :=
    if contains input_lc "thank" && allowed "friendly" then Some "friendly"
    else if (contains input_lc "king" || contains input_lc "queen"
             || contains input_lc "majesty" || contains input_lc "lord")
            && allowed "deferential"
    then Some "deferential"
    else match allowed_modes npc with
         | m :: _ => Some m
         | [] => None
         end in
  if (contains input_lc "threaten" || contains input_lc "kill"
      || contains input_lc "harm" || contains input_lc "attack")
     && allowed "rude"
  then Some "rude"
  else if String.eqb (relationship state) "friend"
  then (if allowed "friendly" then Some "friendly" else by_input)
  else if String.eqb (relationship state) "foe"
  then (if allowed "rude" then Some "rude"
        else if allowed "suspicious" then Some "suspicious" else by_input)
  else if String.eqb (relationship state) "stranger"
  then (if allowed "suspicious" then Some "suspicious" else by_input)
  else by_input.

(** [sanitize_token_text]: the loop over the input, with its flag
    [last_was_space]; the characters pushed to [output] in order. *)
Fixpoint sanitize_from (input : string) (last_was_space : bool) : string :=
  match input with
  | EmptyString => EmptyString
  | String c rest =>
      let n := nat_of_ascii c in
      let ch := if ((n =? 10)%nat || ((32 <=? n)%nat && (n <=? 126)%nat))%bool
                then c else " "%char in
      if Ascii.eqb ch " "%char
      then if last_was_space then sanitize_from rest true
           else String ch (sanitize_from rest true)
      else String ch (sanitize_from rest false)
  end.

Definition sanitize_token_text (input : string) : string :=
  sanitize_from input false.

(** [s.substr(0, n)]. *)
Fixpoint str_take (n : nat) (s : string) : string :=
  match n, s with
  | S n', String c s' => String c (str_take n' s')
  | _, _ => EmptyString
  end.

(** The rest of [s] from offset [pos]; [None] when [pos > s.size()]. *)
Fixpoint str_skip (pos : nat) (s : string) : option string :=
  match pos with
  | O => Some s
  | S pos' => match s with
              | EmptyString => None
              | String _ s' => str_skip pos' s'
              end
  end.

(** [s.find(kw, pos)]. *)
Definition str_find_at (s kw : string) (pos : nat) : option nat :=
  match str_skip pos s with
  | Some rest => find_from kw rest pos
  | None => None
  end.

(** [s.find_last_of(chars)]. *)
Fixpoint find_last_of_from (chars : list ascii) (s : string) (pos : nat)
    (last : option nat) : option nat :=
  match s with
  | EmptyString => last
  | String a s' =>
      find_last_of_from chars s' (S pos)
        (if existsb (Ascii.eqb a) chars then Some pos else last)
  end.

Definition str_find_last_of (s : string) (chars : list ascii) : option nat :=
  find_last_of_from chars s 0 None.

Definition sentence_ends : list ascii := ["."%char; "!"%char; "?"%char].

Definition cues (state : GameState) : list string :=
  [ "Adventurer:"; "User:"; "You say"; "### Input:"; "### Instruction:";
    "### Response:"; "### Assistant:"; "### Human:"; player_name state ++ ":" ].

(** One iteration of the loop over the cues: [cut] becomes the smaller
    position. *)
Definition cut_step (output : string) (cut : option nat) (cue : string) : option nat :=
  match str_find_at output cue 1 with
  | Some pos =>
      match cut with
      | None => Some pos
      | Some c => if (pos <? c)%nat then Some pos else cut
      end
  | None => cut
  end.

Definition truncate_at_forbidden_speaker (output : string) (state : GameState) : string :=
  let cut := fold_left (cut_step output) (cues state) None in
  let result := match cut with Some c => str_take c output | None => output end in
  match str_find_last_of result sentence_ends with
  | Some last_period =>
      if F64.ltb (F64.mul (F64.of_int (Z.of_nat (String.length result))) F64.c0_7)
                 (F64.of_int (Z.of_nat last_period))
      then str_take (last_period + 1) result
      else result
  | None => result
  end.

(** [s.back()] and [s.pop_back()] on a non-empty string. *)
Fixpoint str_back (s : string) : option ascii :=
  match s with
  | EmptyString => None
  | String c EmptyString => Some c
  | String _ s' => str_back s'
  end.

Fixpoint str_pop_back (s : string) : string :=
  match s with
  | EmptyString => EmptyString
  | String c EmptyString => EmptyString
  | String c s' => String c (str_pop_back s')
  end.

(** The clean-up of the reply in [main], after the truncation: the
    fallback sentence for an empty reply or a lone quotation mark, then
    the removal of one leading and one trailing quotation mark. *)
Definition clean_output (output : string) : string :=
  let output :=
    if (String.eqb output "" || String.eqb output (String dquote ""))%bool
    then "I... I'm not sure what to say." else output in
  let output :=
    match output with
    | String c rest => if Ascii.eqb c dquote then rest else output
    | EmptyString => output
    end in
  match str_back output with
  | Some c => if Ascii.eqb c dquote then str_pop_back output else output
  | None => output
  end.

(** What [main] prints as the reply for the detokenized text [raw]:
    sanitized, truncated, then cleaned up. *)
Definition reply_text (raw : string) (state : GameState) : string :=
  clean_output (truncate_at_forbidden_speaker (sanitize_token_text raw) state).

Definition MIN_RESPONSE_TOKENS : Z := 8.
Definition DEFAULT_MAX_OUTPUT_TOKENS : Z := 300.

(** The two budgets [main] computes for a turn. *)
Definition turn_min_tokens (mode : PersonalityMode) : Z :=
  Z.max MIN_RESPONSE_TOKENS (min_tokens mode).

Definition turn_max_tokens (mode : PersonalityMode) : Z :=
  Z.min DEFAULT_MAX_OUTPUT_TOKENS (max_tokens mode).

End Engine.

(** ** Reading the results of the text helpers *)

(** The characters [sanitize_token_text] lets through: the line feed and
    the printable ASCII range. *)
Definition plain_char (c : ascii) : bool :=
  ((nat_of_ascii c =? 10)%nat
   || ((32 <=? nat_of_ascii c)%nat && (nat_of_ascii c <=? 126)%nat))%bool.

(** [kw] occurs in [s] at offset [p]. *)
Definition occurs_at (kw s : string) (p : nat) : Prop :=
  ∃ pre post, s = String.append pre (String.append kw post) ∧ String.length pre = p.

(** [r] is an initial part of [s]. *)
Definition is_prefix (r s : string) : Prop :=
  ∃ rest, s = String.append r rest.

(** ** Inputs of the instances *)

(** The first and the second NPC of the table. *)
Definition krackle : Engine.NPCProfile :=
  nth 0 Engine.NPCS
      {| Engine.name := ""; Engine.base_prompt := ""; Engine.allowed_modes := [];
         Engine.background_info := "" |}.

Definition mira : Engine.NPCProfile :=
  nth 1 Engine.NPCS
      {| Engine.name := ""; Engine.base_prompt := ""; Engine.allowed_modes := [];
         Engine.background_info := "" |}.

(** A game state as [main] reads it: a stranger who did nothing yet. *)
Definition stranger_state : Engine.GameState :=
  {| Engine.player_name := "Aria"; Engine.player_class := "ranger";
     Engine.relationship := "stranger"; Engine.player_level := 3;
     Engine.recent_action := "" |}.

(** An object that holds one flag byte, of a bit no category uses, before
    [initialize] runs. *)
Definition flagged_accelerator : ZipfAccelerator :=
  set_flags_initialized [16] (default_accelerator 0).

(** Seven turns with the same role, mood and vocabulary. *)
Definition seven_turns : list (string * string * llama_vocab) :=
  replicate 7 ("guard"%string, "friendly"%string, small_vocab).

(** * Properties *)

(** ** In-place updates of the logit buffer *)

Lemma upd_lookup_same {A} (f : A → A) (logits : list A) (i : nat) :
  upd f logits (Z.of_nat i) !! i = f <$> logits !! i.
Proof.
  unfold upd. destruct (Z.leb_spec 0 (Z.of_nat i)); [|lia].
  rewrite Nat2Z.id. apply list_lookup_alter_eq.
Qed.

Lemma upd_lookup_other {A} (f : A → A) (logits : list A) (t : Z) (i : nat) :
  t ≠ Z.of_nat i → upd f logits t !! i = logits !! i.
Proof.
  intros Hne. unfold upd. destruct (Z.leb_spec 0 t); [|done].
  apply list_lookup_alter_ne. lia.
Qed.

Lemma upd_length {A} (f : A → A) (logits : list A) (t : Z) :
  length (upd f logits t) = length logits.
Proof. unfold upd. destruct (0 <=? t); [apply length_alter | done]. Qed.

Section Loops.
(** A loop over [xs] whose body either rewrites the entry at [key x] by
    the function [F x] gives, or leaves the array alone. *)
Context {A X : Type} (key : X → Z) (F : X → option (A → A)).
Context (step : list A → X → list A).
Hypothesis step_spec : ∀ lg x,
  step lg x = match F x with Some f => upd f lg (key x) | None => lg end.

Lemma loop_lookup_untouched (xs : list X) (logits : list A) (i : nat) :
  (∀ x, x ∈ xs → key x = Z.of_nat i → F x = None) →
  fold_left step xs logits !! i = logits !! i.
Proof.
  revert logits. induction xs as [|x xs IH]; intros logits Hno; [done|].
  cbn [fold_left]. rewrite IH.
  - rewrite step_spec. destruct (F x) as [f|] eqn:HF; [|done].
    apply upd_lookup_other. intros Hk.
    specialize (Hno x (list_elem_of_here _ _) Hk). congruence.
  - intros y Hy. apply Hno. by apply list_elem_of_further.
Qed.

Lemma loop_lookup_touched (xs : list X) (logits : list A) (i : nat) x f :
  NoDup (key <$> xs) → x ∈ xs → key x = Z.of_nat i → F x = Some f →
  fold_left step xs logits !! i = f <$> logits !! i.
Proof.
  revert logits. induction xs as [|y xs IH]; intros logits Hnd Hin Hk HF.
  { by apply elem_of_nil in Hin. }
  rewrite fmap_cons in Hnd. apply NoDup_cons in Hnd as [Hfresh Hnd].
  cbn [fold_left]. apply elem_of_cons in Hin as [->|Hin].
  - rewrite loop_lookup_untouched.
    + rewrite step_spec, HF, Hk. apply upd_lookup_same.
    + intros x' Hx' Hk'. exfalso. apply Hfresh.
      rewrite Hk, <- Hk'. apply list_elem_of_fmap. eauto.
  - rewrite IH by done. f_equal.
    rewrite step_spec. destruct (F y) as [g|]; [|done].
    apply upd_lookup_other. intros Hy. apply Hfresh.
    rewrite Hy, <- Hk. apply list_elem_of_fmap. eauto.
Qed.

Lemma loop_length (xs : list X) (logits : list A) :
  length (fold_left step xs logits) = length logits.
Proof.
  revert logits. induction xs as [|x xs IH]; intros logits; [done|].
  cbn [fold_left]. rewrite IH, step_spec.
  destruct (F x); [apply upd_length | done].
Qed.
End Loops.

(** A range-for over an [unordered_set] that rewrites the entry of the
    members satisfying [P] with [f]. *)
Lemma set_loop_lookup {A} (s : gset Z) (P : Z → Prop) `{!∀ t, Decision (P t)}
    (f : A → A) (logits : list A) (i : nat) :
  fold_left (λ lg token, if decide (P token) then upd f lg token else lg)
            (elements s) logits !! i
  = if decide (Z.of_nat i ∈ s ∧ P (Z.of_nat i)) then f <$> logits !! i else logits !! i.
Proof.
  set (F := λ t : Z, if decide (P t) then Some f else None).
  assert (Hstep : ∀ lg x,
    (if decide (P x) then upd f lg x else lg)
    = match F x with Some g => upd g lg (id x) | None => lg end).
  { intros lg x. unfold F. by destruct (decide (P x)). }
  destruct (decide (Z.of_nat i ∈ s ∧ P (Z.of_nat i))) as [[Hin HP]|Hno].
  - eapply (loop_lookup_touched id F _ Hstep) with (x := Z.of_nat i).
    + rewrite list_fmap_id. apply NoDup_elements.
    + by apply elem_of_elements.
    + done.
    + unfold F. by rewrite decide_True.
  - apply (loop_lookup_untouched id F _ Hstep).
    intros x Hx Hk. unfold id in Hk. subst x. unfold F.
    apply elem_of_elements in Hx. rewrite decide_False; [done|]. tauto.
Qed.

Lemma set_loop_lookup_all {A} (s : gset Z) (f : A → A) (logits : list A) (i : nat) :
  fold_left (upd f) (elements s) logits !! i
  = if decide (Z.of_nat i ∈ s) then f <$> logits !! i else logits !! i.
Proof.
  pose proof (set_loop_lookup s (λ _, True) f logits i) as H.
  etransitivity; [exact H|].
  destruct (decide (Z.of_nat i ∈ s)).
  - rewrite decide_True; [done|tauto].
  - rewrite decide_False; [done|tauto].
Qed.

Lemma suppress_dialogue_enders_lookup (z : ZipfAccelerator) (logits : list float32) (i : nat) :
  suppress_dialogue_enders z logits !! i
  = if decide (Z.of_nat i ∈ dialogue_tokens z ∧ Z.of_nat i ∈ punctuation z)
    then (λ x, F32.sub x F32.two) <$> logits !! i else logits !! i.
Proof. unfold suppress_dialogue_enders. apply set_loop_lookup. Qed.

Lemma boost_dialogue_enders_lookup (z : ZipfAccelerator) (logits : list float32)
    (boost : float32) (i : nat) :
  boost_dialogue_enders z logits boost !! i
  = if decide (Z.of_nat i ∈ dialogue_tokens z)
    then (λ x, F32.add x boost) <$> logits !! i else logits !! i.
Proof. unfold boost_dialogue_enders. apply set_loop_lookup_all. Qed.

Lemma dialogue_flow_lookup (z : ZipfAccelerator) (logits : list float32)
    (min_tokens_remaining : Z) (i : nat) :
  dialogue_flow z logits min_tokens_remaining !! i
  = if F32.ltb (completion_ratio min_tokens_remaining) F32.c0_6
    then if decide (Z.of_nat i ∈ dialogue_tokens z ∧ Z.of_nat i ∈ punctuation z)
         then (λ x, F32.sub x F32.two) <$> logits !! i
         else logits !! i
    else if decide (Z.of_nat i ∈ dialogue_tokens z)
         then (λ x, F32.add x (F32.mul (dialogue_boost z)
                                       (completion_ratio min_tokens_remaining)))
                <$> logits !! i
         else logits !! i.
Proof.
  unfold dialogue_flow.
  destruct (F32.ltb (completion_ratio min_tokens_remaining) F32.c0_6).
  - apply suppress_dialogue_enders_lookup.
  - apply boost_dialogue_enders_lookup.
Qed.

(** C7: the dialogue-flow step of [accelerate_logits].  The completion
    ratio is [1 - remaining/200] with the constant 200.  When the ratio is
    below 0.6 the logit of every token that is in both the dialogue set and
    the punctuation set has 2.0 subtracted and every other logit is left as
    it is; otherwise the logit of every token of the dialogue set has
    [dialogue_boost * ratio] added, [dialogue_boost] being
    [0.4 * pattern_strength], and every other logit is left as it is. *)
Theorem dialogue_flow_step (z : ZipfAccelerator) (logits : list float32)
    (min_tokens_remaining : Z) (i : nat) :
  let ratio :=
    F32.sub F32.one (F32.div (F32.of_int min_tokens_remaining) (F32.of_int 200)) in
  let boost := F32.mul (F32.mul F32.c0_4 (pattern_strength (params z))) ratio in
  dialogue_flow z logits min_tokens_remaining !! i
  = if F32.ltb ratio F32.c0_6
    then if decide (Z.of_nat i ∈ dialogue_tokens z ∧ Z.of_nat i ∈ punctuation z)
         then (λ x, F32.sub x F32.two) <$> logits !! i
         else logits !! i
    else if decide (Z.of_nat i ∈ dialogue_tokens z)
         then (λ x, F32.add x boost) <$> logits !! i
         else logits !! i.
Proof. intros ratio boost. apply dialogue_flow_lookup. Qed.

(** ** The category loop of [initialize] *)

Section CategoryLoop.
Context (powf : float32 → float32 → float32) (logf : float32 → float32).
Context (vocab : llama_vocab) (cc rc : Z) (sorted : list (Z * float32)).

Local Abbreviation body := (categorize_token powf logf vocab cc rc sorted).

Lemma categorize_token_common z rank t :
  t ∈ common_tokens (body z rank) ↔
  t ∈ common_tokens z ∨
  (rank < cc ∧ ∃ e, sorted !! Z.to_nat rank = Some e ∧ e.1 = t).
Proof.
  unfold categorize_token. destruct (sorted !! Z.to_nat rank) as [e|] eqn:He.
  - cbn [common_tokens set_tables]. destruct (Z.ltb_spec rank cc).
    + rewrite elem_of_union, elem_of_singleton. naive_solver.
    + split; [tauto|]. intros [?|[? _]]; [done|lia].
  - naive_solver.
Qed.

Lemma categorize_token_rare z rank t :
  t ∈ rare_tokens (body z rank) ↔
  t ∈ rare_tokens z ∨
  (rc < rank ∧ ∃ e, sorted !! Z.to_nat rank = Some e ∧ e.1 = t).
Proof.
  unfold categorize_token. destruct (sorted !! Z.to_nat rank) as [e|] eqn:He.
  - cbn [rare_tokens set_tables]. rewrite Z.gtb_ltb. destruct (Z.ltb_spec rc rank).
    + rewrite elem_of_union, elem_of_singleton. naive_solver.
    + split; [tauto|]. intros [?|[? _]]; [done|lia].
  - naive_solver.
Qed.

Lemma categorize_loop_common ranks z t :
  t ∈ common_tokens (fold_left body ranks z) ↔
  t ∈ common_tokens z ∨
  ∃ rank e, rank ∈ ranks ∧ rank < cc ∧ sorted !! Z.to_nat rank = Some e ∧ e.1 = t.
Proof.
  revert z. induction ranks as [|r ranks IH]; intros z; cbn [fold_left].
  - split; [tauto|]. intros [?|(?&?&H&_)]; [done|]. by apply elem_of_nil in H.
  - rewrite IH, categorize_token_common. setoid_rewrite elem_of_cons. naive_solver.
Qed.

Lemma categorize_loop_rare ranks z t :
  t ∈ rare_tokens (fold_left body ranks z) ↔
  t ∈ rare_tokens z ∨
  ∃ rank e, rank ∈ ranks ∧ rc < rank ∧ sorted !! Z.to_nat rank = Some e ∧ e.1 = t.
Proof.
  revert z. induction ranks as [|r ranks IH]; intros z; cbn [fold_left].
  - split; [tauto|]. intros [?|(?&?&H&_)]; [done|]. by apply elem_of_nil in H.
  - rewrite IH, categorize_token_rare. setoid_rewrite elem_of_cons. naive_solver.
Qed.


(** The loop writes the five tables and nothing else. *)
Lemma categorize_loop_frame ranks z :
  let z' := fold_left body ranks z in
  current_role_tokens z' = current_role_tokens z ∧
  current_mood_tokens z' = current_mood_tokens z ∧
  vocab_size z' = vocab_size z ∧
  initialized z' = initialized z ∧
  conv_state z' = conv_state z ∧
  params z' = params z ∧
  token_flags z' = token_flags z.
Proof.
  revert z. induction ranks as [|r ranks IH]; intros z; cbn [fold_left]; [done|].
  cbn zeta in IH. destruct (IH (body z r)) as (->&->&->&->&->&->&->).
  unfold categorize_token. by destruct (sorted !! Z.to_nat r).
Qed.
End CategoryLoop.

Lemma wrap_int_small (z : Z) : int_min ≤ z ≤ int_max → wrap_int z = z.
Proof.
  unfold wrap_int, int_min, int_max. intros H.
  rewrite Z.mod_small; lia.
Qed.

Lemma token_scores_ids (vocab : llama_vocab) (vs : Z) :
  (token_scores vocab vs).*1 = seqZ 0 vs.
Proof.
  unfold token_scores. rewrite <- list_fmap_compose.
  induction (seqZ 0 vs) as [|x l IH]; [done|]. cbn. by rewrite IH.
Qed.

Section Initialize.
Context (powf : float32 → float32 → float32) (logf : float32 → float32).
Context (std_sort : list (Z * float32) → list (Z * float32)).

Local Abbreviation init := (initialize powf logf std_sort).

Lemma initialize_common vocab z t :
  let vs := wrap_int (n_tokens vocab) in
  t ∈ common_tokens (init vocab z) ↔
  ∃ rank e, 0 ≤ rank < vs ∧ rank < Z.min 500 (vs ÷ 10) ∧
            std_sort (token_scores vocab vs) !! Z.to_nat rank = Some e ∧ e.1 = t.
Proof.
  intros vs. unfold initialize. fold vs. cbn [common_tokens set_flags_initialized].
  rewrite categorize_loop_common. cbn [common_tokens set_tables].
  setoid_rewrite elem_of_seqZ. split.
  - intros [H|(rank&e&?&?&?&?)]; [set_solver|]. exists rank, e. repeat split; try done; lia.
  - intros (rank&e&?&?&?&?). right. exists rank, e. repeat split; try done; lia.
Qed.

Lemma initialize_rare vocab z t :
  let vs := wrap_int (n_tokens vocab) in
  t ∈ rare_tokens (init vocab z) ↔
  ∃ rank e, 0 ≤ rank < vs ∧ wrap_int (vs * 4) ÷ 5 < rank ∧
            std_sort (token_scores vocab vs) !! Z.to_nat rank = Some e ∧ e.1 = t.
Proof.
  intros vs. unfold initialize. fold vs. cbn [rare_tokens set_flags_initialized].
  rewrite categorize_loop_rare. cbn [rare_tokens set_tables].
  setoid_rewrite elem_of_seqZ. split.
  - intros [H|(rank&e&?&?&?&?)]; [set_solver|]. exists rank, e. repeat split; try done; lia.
  - intros (rank&e&?&?&?&?). right. exists rank, e. repeat split; try done; lia.
Qed.

Lemma initialize_flags_fresh vocab z (i : nat) (f : Z) :
  token_flags z = [] →
  token_flags (init vocab z) !! i = Some f →
  f = category_flags (init vocab z) (Z.of_nat i).
Proof.
  intros Hfresh. unfold category_flags, initialize.
  cbn [token_flags common_tokens rare_tokens punctuation dialogue_tokens
       set_flags_initialized].
  set (vs := wrap_int (n_tokens vocab)).
  set (z0 := set_tables _ ∅ ∅ ∅ ∅ _).
  set (ranks := seqZ 0 vs).
  set (z1 := fold_left _ ranks z0).
  assert (Hflags : token_flags z1 = []).
  { destruct (categorize_loop_frame powf logf vocab (Z.min 500 (vs ÷ 10))
                (wrap_int (vs * 4) ÷ 5) (std_sort (token_scores vocab vs)) ranks z0)
      as (_&_&_&_&_&_&Hfl).
    unfold z1. rewrite Hfl. exact Hfresh. }
  rewrite Hflags, resize_nil. unfold or_flags. rewrite !set_loop_lookup_all.
  destruct (replicate (Z.to_nat vs) 0 !! i) as [f0|] eqn:Hrep.
  - apply lookup_replicate in Hrep as [-> _].
    repeat case_decide; cbn; congruence.
  - repeat case_decide; cbn; congruence.
Qed.

Lemma initialize_common_rare_apart vocab z t :
  0 ≤ n_tokens vocab → n_tokens vocab * 4 ≤ int_max →
  std_sort (token_scores vocab (n_tokens vocab)) ≡ₚ token_scores vocab (n_tokens vocab) →
  ¬ (t ∈ common_tokens (init vocab z) ∧ t ∈ rare_tokens (init vocab z)).
Proof.
  intros Hn0 Hn4 Hperm [Hc Hr].
  apply initialize_common in Hc as (r1&e1&Hr1&Hcut1&He1&Ht1).
  apply initialize_rare in Hr as (r2&e2&Hr2&Hcut2&He2&Ht2).
  cbn zeta in *.
  assert (Hvs : wrap_int (n_tokens vocab) = n_tokens vocab).
  { apply wrap_int_small. unfold int_min, int_max in *. lia. }
  rewrite Hvs in *.
  rewrite wrap_int_small in Hcut2 by (unfold int_min, int_max in *; lia).
  rewrite !Z.quot_div_nonneg in * by lia.
  assert (r1 < r2).
  { pose proof (Z.div_le_mono (n_tokens vocab * 1) (n_tokens vocab * 8) 10) as Hm.
    replace (n_tokens vocab * 4 / 5) with (n_tokens vocab * 8 / 10) in Hcut2.
    - rewrite Z.mul_1_r in Hm. lia.
    - replace (n_tokens vocab * 8) with (n_tokens vocab * 4 * 2) by lia.
      replace 10 with (5 * 2) by lia. apply Z.div_mul_cancel_r; lia. }
  assert (Hnd : NoDup (std_sort (token_scores vocab (n_tokens vocab))).*1).
  { rewrite Hperm, token_scores_ids. apply NoDup_seqZ. }
  assert (Z.to_nat r1 = Z.to_nat r2); [|lia].
  eapply NoDup_lookup; [exact Hnd| |].
  - rewrite list_lookup_fmap, He1. cbn. reflexivity.
  - rewrite list_lookup_fmap, He2. cbn. by rewrite Ht2, Ht1.
Qed.

(** C9: no token is in both the COMMON and the RARE set that
    [initialize] builds; and when the object was default-constructed, no
    entry of [token_flags] has both the [IS_COMMON] and the [IS_RARE] bit.
    The vocabulary size is one for which [vocab_size * 4] is computed
    without overflow of [int], and [std::sort] leaves a permutation of the
    range it was given. *)
Theorem common_rare_disjoint vocab z :
  0 ≤ n_tokens vocab → n_tokens vocab * 4 ≤ int_max →
  std_sort (token_scores vocab (n_tokens vocab)) ≡ₚ token_scores vocab (n_tokens vocab) →
  (∀ t, ¬ (t ∈ common_tokens (init vocab z) ∧ t ∈ rare_tokens (init vocab z))) ∧
  (token_flags z = [] →
   ∀ (i : nat) (f : Z), token_flags (init vocab z) !! i = Some f →
     has_flag f IS_COMMON && has_flag f IS_RARE = false).
Proof.
  intros Hn0 Hn4 Hperm. split.
  - intros t. by apply initialize_common_rare_apart.
  - intros Hfresh i f Hf. apply (initialize_flags_fresh _ _ _ _ Hfresh) in Hf.
    pose proof (initialize_common_rare_apart vocab z (Z.of_nat i) Hn0 Hn4 Hperm) as Hapart.
    subst f. unfold category_flags.
    repeat case_decide; try done; exfalso; tauto.
Qed.
End Initialize.

(** ** Sorted ranges *)

Lemma no_inversion_spec (l : list (Z * float32)) :
  no_inversion l = true ↔
  ∀ (i j : nat) a b, (i < j)%nat → l !! i = Some a → l !! j = Some b →
    score_gt b a = false.
Proof.
  induction l as [|x l IH]; cbn [no_inversion].
  - split; [|done]. intros _ i j a b _ Hi. by rewrite lookup_nil in Hi.
  - rewrite andb_true_iff, forallb_forall, IH. split.
    + intros [Hx Hl] i j a b Hij Hi Hj.
      destruct j as [|j]; [lia|]. cbn in Hj. destruct i as [|i].
      * cbn in Hi. injection Hi as <-.
        apply negb_true_iff, Hx, list_elem_of_In. by eapply list_elem_of_lookup_2.
      * cbn in Hi. eapply Hl; [|done..]. lia.
    + intros H. split.
      * intros b Hb. apply list_elem_of_In, list_elem_of_lookup_1 in Hb as [j Hj].
        apply negb_true_iff. by apply (H 0%nat (S j) x b); [lia|..].
      * intros i j a b Hij Hi Hj. apply (H (S i) (S j)); [lia|done..].
Qed.

Lemma std_sort_post_check (input output : list (Z * float32)) :
  output ≡ₚ input → no_inversion output = true → std_sort_post input output.
Proof. intros Hp Hs. split; [done|]. by apply no_inversion_spec. Qed.

(** A range whose elements are strictly ordered has one sorted
    arrangement only. *)
Lemma sorted_permutation_unique (l1 l2 : list (Z * float32)) :
  l1 ≡ₚ l2 → no_inversion l1 = true → strictly_descending l2 = true → l1 = l2.
Proof.
  revert l1. induction l2 as [|b l2 IH]; intros l1 Hp Hs1 Hs2.
  { by apply Permutation_nil_r in Hp. }
  destruct l1 as [|a l1].
  { by apply Permutation_nil_cons in Hp. }
  cbn [no_inversion strictly_descending] in Hs1, Hs2.
  apply andb_true_iff in Hs1 as [Ha Hs1]. apply andb_true_iff in Hs2 as [Hb Hs2].
  rewrite forallb_forall in Ha, Hb.
  assert (a = b) as ->.
  { destruct (decide (a = b)) as [|Hne]; [done|]. exfalso.
    assert (Hin_a : a ∈ l2).
    { assert (a ∈ b :: l2) as Hin by (rewrite <- Hp; left).
      apply elem_of_cons in Hin as [?|?]; done. }
    assert (Hin_b : b ∈ l1).
    { assert (b ∈ a :: l1) as Hin by (rewrite Hp; left).
      apply elem_of_cons in Hin as [?|?]; [congruence|done]. }
    apply list_elem_of_In, Hb in Hin_a. apply list_elem_of_In, Ha in Hin_b.
    apply negb_true_iff in Hin_b. congruence. }
  f_equal. apply IH; [by eapply Permutation_cons_inv|done..].
Qed.

Lemma insert_behind_equal_perm x l : insert_behind_equal x l ≡ₚ x :: l.
Proof.
  induction l as [|y l IH]; cbn; [done|].
  destruct (score_gt x y); [done|]. rewrite IH. apply Permutation_swap.
Qed.

Lemma insertion_sort_perm l : insertion_sort l ≡ₚ l.
Proof.
  unfold insertion_sort.
  enough (∀ acc, fold_left (λ acc x, insert_behind_equal x acc) l acc ≡ₚ l ++ acc) as H.
  { by rewrite H, app_nil_r. }
  induction l as [|x l IH]; intros acc; cbn [fold_left]; [done|].
  rewrite IH, insert_behind_equal_perm. cbn. by rewrite Permutation_middle.
Qed.



Lemma token_scores_elem (vocab : llama_vocab) (vs : Z) (e : Z * float32) :
  e ∈ token_scores vocab vs ↔ 0 ≤ e.1 < vs ∧ e.2 = token_get_score vocab e.1.
Proof.
  unfold token_scores. rewrite list_elem_of_fmap. setoid_rewrite elem_of_seqZ.
  destruct e as [id sc]. cbn. split.
  - intros (x&[= -> ->]&?). split; [lia|done].
  - intros [? ->]. exists id. split; [done|lia].
Qed.

Section InitializeClaims.
Context (powf : float32 → float32 → float32) (logf : float32 → float32).
Context (std_sort : list (Z * float32) → list (Z * float32)).

Local Abbreviation init := (initialize powf logf std_sort).

(** C2, as the code has it: for the vocabulary of 1000 tokens with score
    [1000 - i], token 0 has rank 0 and the COMMON set has 100 tokens, but
    the RARE set has 199 tokens (the ranks 801 to 999), not 200. *)
Theorem vocab1000_categories z :
  std_sort_post (token_scores vocab1000 1000) (std_sort (token_scores vocab1000 1000)) →
  rank_order std_sort vocab1000 !! 0%nat = Some 0 ∧
  size (common_tokens (init vocab1000 z)) = 100%nat ∧
  size (rare_tokens (init vocab1000 z)) = 199%nat.
Proof.
  intros [Hperm Hsorted].
  assert (Heq : std_sort (token_scores vocab1000 1000) = token_scores vocab1000 1000).
  { apply sorted_permutation_unique; [done| |by vm_compute].
    by apply no_inversion_spec. }
  unfold rank_order, initialize.
  change (wrap_int (n_tokens vocab1000)) with 1000.
  rewrite Heq. repeat split; by vm_compute.
Qed.



End InitializeClaims.

(** ** Substring search *)

Lemma starts_with_spec (kw s : string) :
  starts_with kw s = true ↔ ∃ post, s = String.append kw post.
Proof.
  revert s. induction kw as [|a kw IH]; intros s; cbn [starts_with String.append].
  - split; [eauto|done].
  - destruct s as [|b s].
    + split; [done|]. by intros [post ?].
    + destruct (Ascii.eqb_spec a b) as [->|Hne].
      * rewrite IH. split; intros [post H]; exists post.
        -- by rewrite H.
        -- by injection H.
      * split; [done|]. intros [post H]. by injection H.
Qed.

Lemma find_from_spec (kw s : string) (pos : nat) :
  found (find_from kw s pos) = true ↔ occurs_in kw s.
Proof.
  unfold occurs_in. revert pos. induction s as [|c s IH]; intros pos; cbn [find_from].
  - destruct (starts_with kw EmptyString) eqn:Hs; cbn.
    + apply starts_with_spec in Hs as [post Hs]. split; [|done].
      intros _. by exists EmptyString, post.
    + split; [done|]. intros (pre&post&H). destruct pre; [|done].
      cbn in H. assert (starts_with kw EmptyString = true); [|congruence].
      apply starts_with_spec. eauto.
  - destruct (starts_with kw (String c s)) eqn:Hs.
    + apply starts_with_spec in Hs as [post Hs]. split; [|done].
      intros _. by exists EmptyString, post.
    + rewrite IH. split.
      * intros (pre&post&->). by exists (String c pre), post.
      * intros (pre&post&H). destruct pre as [|c' pre].
        -- cbn in H. assert (starts_with kw (String c s) = true); [|congruence].
           apply starts_with_spec. eauto.
        -- cbn in H. injection H as -> ->. eauto.
Qed.

Lemma keyword_match_spec (keywords : list string) (lower_text : string) :
  keyword_match keywords lower_text = true ↔
  ∃ keyword, keyword ∈ keywords ∧ occurs_in keyword lower_text.
Proof.
  unfold keyword_match. rewrite existsb_exists.
  setoid_rewrite <- list_elem_of_In. unfold str_find.
  by setoid_rewrite find_from_spec.
Qed.

(** ** The token loop of [update_context] *)

Lemma match_loop_role vocab role_keywords mood_keywords ids sets t :
  t ∈ (fold_left (match_token vocab role_keywords mood_keywords) ids sets).1 ↔
  t ∈ sets.1 ∨
  (t ∈ ids ∧ keyword_match role_keywords (to_lower (token_get_text vocab t)) = true).
Proof.
  revert sets. induction ids as [|id ids IH]; intros sets; cbn [fold_left].
  - rewrite elem_of_nil. tauto.
  - rewrite IH, elem_of_cons. unfold match_token. cbn [fst].
    destruct (keyword_match role_keywords (to_lower (token_get_text vocab id))) eqn:Hm.
    + rewrite elem_of_union, elem_of_singleton.
      split; [intros [[->|?]|[? ?]]|intros [?|[[->|?] ?]]]; tauto.
    + split; [intros [?|[? ?]]|intros [?|[[->|?] ?]]]; try tauto. congruence.
Qed.

Lemma match_loop_mood vocab role_keywords mood_keywords ids sets t :
  t ∈ (fold_left (match_token vocab role_keywords mood_keywords) ids sets).2 ↔
  t ∈ sets.2 ∨
  (t ∈ ids ∧ keyword_match mood_keywords (to_lower (token_get_text vocab t)) = true).
Proof.
  revert sets. induction ids as [|id ids IH]; intros sets; cbn [fold_left].
  - rewrite elem_of_nil. tauto.
  - rewrite IH, elem_of_cons. unfold match_token. cbn [snd].
    destruct (keyword_match mood_keywords (to_lower (token_get_text vocab id))) eqn:Hm.
    + rewrite elem_of_union, elem_of_singleton.
      split; [intros [[->|?]|[? ?]]|intros [?|[[->|?] ?]]]; tauto.
    + split; [intros [?|[? ?]]|intros [?|[[->|?] ?]]]; try tauto. congruence.
Qed.

Lemma update_context_role (role mood : string) vocab z t :
  t ∈ current_role_tokens (update_context role mood vocab z) ↔
  0 ≤ t < vocab_size z ∧
  ∃ keyword, keyword ∈ get_role_keywords role ∧
             occurs_in keyword (to_lower (token_get_text vocab t)).
Proof.
  unfold update_context. cbn [current_role_tokens set_context].
  rewrite match_loop_role, elem_of_seqZ, keyword_match_spec. cbn [fst].
  rewrite elem_of_empty. split; [intros [[]|[? ?]]|intros [? ?]; right]; (split; [lia|done]).
Qed.

Lemma update_context_mood (role mood : string) vocab z t :
  t ∈ current_mood_tokens (update_context role mood vocab z) ↔
  0 ≤ t < vocab_size z ∧
  ∃ keyword, keyword ∈ get_mood_keywords mood ∧
             occurs_in keyword (to_lower (token_get_text vocab t)).
Proof.
  unfold update_context. cbn [current_mood_tokens set_context].
  rewrite match_loop_mood, elem_of_seqZ, keyword_match_spec. cbn [snd].
  rewrite elem_of_empty. split; [intros [[]|[? ?]]|intros [? ?]; right]; (split; [lia|done]).
Qed.

Lemma map_find_None (key : string) (m : list (string * list string)) :
  key ∉ m.*1 → map_find key m = None.
Proof.
  induction m as [|[k v] m IH]; cbn; [done|].
  rewrite not_elem_of_cons. intros [Hne Hin].
  destruct (String.eqb_spec k key); [congruence|]. by apply IH.
Qed.

(** C6: [update_context] replaces both matched sets: after the call a
    token is in the role set (mood set) exactly when its id is below
    [vocab_size] and a keyword of the role (mood) occurs in its lower-cased
    text, whatever the sets held before.  For the role guard every member
    has one of the seven guard keywords in its lower-cased text.  For a
    role and a mood that are not keys of the keyword tables both sets are
    empty. *)
Theorem update_context_matched_sets :
  (∀ (role mood : string) vocab z t,
     (t ∈ current_role_tokens (update_context role mood vocab z) ↔
      0 ≤ t < vocab_size z ∧
      ∃ keyword, keyword ∈ get_role_keywords role ∧
                 occurs_in keyword (to_lower (token_get_text vocab t))) ∧
     (t ∈ current_mood_tokens (update_context role mood vocab z) ↔
      0 ≤ t < vocab_size z ∧
      ∃ keyword, keyword ∈ get_mood_keywords mood ∧
                 occurs_in keyword (to_lower (token_get_text vocab t)))) ∧
  (∀ (mood : string) vocab z t,
     t ∈ current_role_tokens (update_context "guard" mood vocab z) →
     ∃ keyword,
       keyword ∈ ["guard"; "watch"; "protect"; "duty"; "patrol"; "secure"; "defend"]%string ∧
       occurs_in keyword (to_lower (token_get_text vocab t))) ∧
  (∀ (role mood : string) vocab z,
     role ∉ role_map.*1 → mood ∉ mood_map.*1 →
     current_role_tokens (update_context role mood vocab z) = ∅ ∧
     current_mood_tokens (update_context role mood vocab z) = ∅).
Proof.
  split; [|split].
  - intros. split; [apply update_context_role | apply update_context_mood].
  - intros mood vocab z t Ht. apply update_context_role in Ht as [_ Ht]. exact Ht.
  - intros role mood vocab z Hr Hm. split; apply set_eq; intros t.
    + rewrite update_context_role. unfold get_role_keywords.
      rewrite (map_find_None _ _ Hr). set_solver.
    + rewrite update_context_mood. unfold get_mood_keywords.
      rewrite (map_find_None _ _ Hm). set_solver.
Qed.

(** ** [accelerate_logits], logit by logit *)

Lemma apply_base_bias_lookup (z : ZipfAccelerator) (logits : list float32) (i : nat) :
  apply_base_bias z logits !! i
  = match base_logit_bias z !! i with
    | Some b =>
        if decide (Z.of_nat i < vocab_size z)
        then (λ x, F32.add x (F32.mul b (complexity_factor (params z)))) <$> logits !! i
        else logits !! i
    | None => logits !! i
    end.
Proof.
  unfold apply_base_bias.
  set (F := λ t : Z,
         match base_logit_bias z !! Z.to_nat t with
         | Some b => Some (λ x, F32.add x (F32.mul b (complexity_factor (params z))))
         | None => None
         end).
  set (step := λ (lg : list float32) (t : Z), _).
  assert (Hstep : ∀ lg t,
    step lg t = match F t with Some f => upd f lg (id t) | None => lg end).
  { intros lg t. unfold step, F. by destruct (base_logit_bias z !! Z.to_nat t). }
  destruct (base_logit_bias z !! i) as [b|] eqn:Hb.
  - destruct (decide (Z.of_nat i < vocab_size z)) as [Hlt|Hge].
    + eapply (loop_lookup_touched id F step Hstep) with (x := Z.of_nat i).
      * rewrite list_fmap_id. apply NoDup_seqZ.
      * apply elem_of_seqZ. lia.
      * done.
      * unfold F. by rewrite Nat2Z.id, Hb.
    + apply (loop_lookup_untouched id F step Hstep).
      intros t Ht Hk. apply elem_of_seqZ in Ht. unfold id in Hk. lia.
  - apply (loop_lookup_untouched id F step Hstep).
    intros t Ht Hk. unfold id in Hk. subst t. unfold F. by rewrite Nat2Z.id, Hb.
Qed.

Lemma apply_conversation_patterns_lookup (z : ZipfAccelerator)
    (logits : list float32) (i : nat) :
  apply_conversation_patterns z logits !! i
  = match turn_frequencies (conv_state z) !! Z.of_nat i with
    | Some freq =>
        if F32.ltb F32.c0_1 freq
        then (λ x, F32.add x (F32.mul F32.c0_2 (pattern_strength (params z)))) <$> logits !! i
        else logits !! i
    | None => logits !! i
    end.
Proof.
  unfold apply_conversation_patterns.
  set (F := λ tf : Z * float32,
         if F32.ltb F32.c0_1 tf.2
         then Some (λ x, F32.add x (F32.mul F32.c0_2 (pattern_strength (params z))))
         else None).
  set (step := λ (lg : list float32) (tf : Z * float32), _).
  assert (Hstep : ∀ lg tf,
    step lg tf = match F tf with Some f => upd f lg (fst tf) | None => lg end).
  { intros lg tf. unfold step, F. by destruct (F32.ltb F32.c0_1 tf.2). }
  destruct (turn_frequencies (conv_state z) !! Z.of_nat i) as [freq|] eqn:Hm.
  - destruct (F32.ltb F32.c0_1 freq) eqn:Hf.
    + eapply (loop_lookup_touched fst F step Hstep) with (x := (Z.of_nat i, freq)).
      * apply NoDup_fst_map_to_list.
      * by apply elem_of_map_to_list.
      * done.
      * unfold F. cbn. by rewrite Hf.
    + apply (loop_lookup_untouched fst F step Hstep).
      intros [t fr] Ht Hk. cbn in Hk. subst t. apply elem_of_map_to_list in Ht.
      unfold F. cbn. assert (fr = freq) as -> by congruence. by rewrite Hf.
  - apply (loop_lookup_untouched fst F step Hstep).
    intros [t fr] Ht Hk. cbn in Hk. subst t. apply elem_of_map_to_list in Ht. congruence.
Qed.

Lemma accelerate_logits_lookup (z : ZipfAccelerator) (logits : list float32)
    (context_length min_tokens_remaining : Z) (i : nat) :
  accelerate_logits z logits context_length min_tokens_remaining !! i
  = (if initialized z then adjust z context_length min_tokens_remaining i else id)
    <$> logits !! i.
Proof.
  unfold accelerate_logits. destruct (initialized z); cbn [negb].
  2:{ by rewrite option_fmap_id. }
  rewrite apply_conversation_patterns_lookup.
  rewrite dialogue_flow_lookup.
  rewrite !set_loop_lookup_all, apply_base_bias_lookup.
  unfold adjust, completion_ratio, dialogue_boost, MAX_RESPONSE_LENGTH.
  destruct (logits !! i) as [x|]; cbn [fmap option_fmap option_map];
    repeat (case_match; cbn [fmap option_fmap option_map]); try done.
Qed.

Lemma one_token_accelerator_reached
    (powf : float32 → float32 → float32) (logf : float32 → float32)
    (std_sort : list (Z * float32) → list (Z * float32)) :
  powf F32.one F32.c0_3 = F32.one → logf F32.one = F32.zero →
  std_sort (token_scores guard_vocab 1) ≡ₚ token_scores guard_vocab 1 →
  update_context "guard" "friendly" guard_vocab
    (initialize powf logf std_sort guard_vocab (default_accelerator 0))
  = one_token_accelerator.
Proof.
  intros Hpow Hlog Hperm.
  assert (Hs : std_sort (token_scores guard_vocab 1) = token_scores guard_vocab 1).
  { symmetry in Hperm. by apply Permutation_singleton_l in Hperm. }
  unfold initialize. change (wrap_int (n_tokens guard_vocab)) with 1. rewrite Hs.
  vm_compute in Hpow, Hlog. vm_compute. rewrite Hpow. vm_compute. rewrite Hlog.
  reflexivity.
Qed.

(** ** The order [<] of binary32 *)

Lemma ltb_asym (a b : float32) : F32.ltb a b = true → F32.ltb b a = false.
Proof.
  unfold F32.ltb, SFltb, SFcompare.
  destruct a as [sa|sa| |sa ma ea], b as [sb|sb| |sb mb eb];
    try destruct sa; try destruct sb; try done.
  all: change (Pos.compare_cont Eq) with Pos.compare.
  all: destruct (Z.compare_spec ea eb), (Z.compare_spec eb ea); try done; try lia.
  all: destruct (Pos.compare_spec ma mb), (Pos.compare_spec mb ma); try done; try lia.
Qed.

Lemma ltb_trans (a b c : float32) :
  F32.ltb a b = true → F32.ltb b c = true → F32.ltb a c = true.
Proof.
  unfold F32.ltb, SFltb, SFcompare.
  destruct a as [sa|sa| |sa ma ea], b as [sb|sb| |sb mb eb], c as [sc|sc| |sc mc ec];
    try destruct sa; try destruct sb; try destruct sc; try done.
  all: change (Pos.compare_cont Eq) with Pos.compare.
  all: destruct (Z.compare_spec ea eb), (Z.compare_spec eb ec), (Z.compare_spec ea ec);
    try done; try lia.
  all: destruct (Pos.compare_spec ma mb), (Pos.compare_spec mb mc),
         (Pos.compare_spec ma mc); try done; try lia.
Qed.

(** ** The two sorting functions meet the guarantee of [std::sort] *)

Lemma insert_behind_equal_sorted x l :
  no_inversion l = true → no_inversion (insert_behind_equal x l) = true.
Proof.
  induction l as [|y l IH]; cbn [insert_behind_equal no_inversion]; [done|].
  intros [Hy Hl]%andb_true_iff. destruct (score_gt x y) eqn:Hxy; cbn [no_inversion].
  - rewrite Hy, Hl, !andb_true_r. cbn [forallb].
    apply andb_true_iff. split.
    + apply negb_true_iff. by apply ltb_asym.
    + apply forallb_forall. intros b Hb. rewrite forallb_forall in Hy.
      apply Hy, negb_true_iff in Hb. apply negb_true_iff.
      unfold score_gt in *. apply not_true_is_false. intros Hxb.
      by rewrite (ltb_trans _ _ _ Hxy Hxb) in Hb.
  - rewrite IH, andb_true_r by done. apply forallb_forall. intros b Hb.
    apply list_elem_of_In in Hb. rewrite insert_behind_equal_perm in Hb.
    apply elem_of_cons in Hb as [->|Hb]; [by rewrite Hxy|].
    rewrite forallb_forall in Hy. by apply Hy, list_elem_of_In.
Qed.

Lemma insertion_sort_sorted l : no_inversion (insertion_sort l) = true.
Proof.
  unfold insertion_sort.
  enough (∀ acc, no_inversion acc = true →
    no_inversion (fold_left (λ acc x, insert_behind_equal x acc) l acc) = true) as H.
  { by apply H. }
  induction l as [|x l IH]; intros acc Hacc; cbn [fold_left]; [done|].
  by apply IH, insert_behind_equal_sorted.
Qed.

Lemma insertion_sort_post l : std_sort_post l (insertion_sort l).
Proof.
  apply std_sort_post_check; [apply insertion_sort_perm | apply insertion_sort_sorted].
Qed.


(** ** The claims on the conversation state and on repeated calls *)

(** C1, as the code has it: [update_context] never appends to
    [recent_lengths]; the deque can only lose its front element.  From the
    default state one call leaves it empty, counts one turn, and, the
    average of an empty history being 0, scales [complexity_factor] by
    0.9, whatever the length of the response of the turn was. *)
Theorem update_context_drops_response_length :
  (∀ (role mood : string) vocab z,
     (length (recent_lengths (conv_state (update_context role mood vocab z)))
      ≤ length (recent_lengths (conv_state z)))%nat) ∧
  (∀ (role mood : string) vocab vs,
     recent_lengths (conv_state (update_context role mood vocab (default_accelerator vs))) = [] ∧
     turn_count (conv_state (update_context role mood vocab (default_accelerator vs))) = 1 ∧
     complexity_factor (params (update_context role mood vocab (default_accelerator vs)))
     = F32.c0_9).
Proof.
  split.
  - intros role mood vocab z. unfold update_context.
    cbn [conv_state set_context update_conv_state recent_lengths].
    destruct (5 <=? length (recent_lengths (conv_state z)))%nat; [|done].
    destruct (recent_lengths (conv_state z)); cbn; lia.
  - intros role mood vocab vs. unfold update_context.
    cbn [conv_state params set_context]. by vm_compute.
Qed.

(** C8, as amended: [accelerate_logits] keeps no record of an earlier
    call.  Called twice with the same context it applies to every logit
    the adjustment of the token twice.  In the one-token object a logit 0
    moves to 0.75 and then to 1.5, a strictly larger shift.  On an object
    that is not initialized both calls leave the buffer as it was. *)
Theorem accelerate_logits_twice :
  (∀ z (logits : list float32) context_length min_tokens_remaining (i : nat),
     accelerate_logits z
       (accelerate_logits z logits context_length min_tokens_remaining)
       context_length min_tokens_remaining !! i
     = (λ x, (if initialized z
              then adjust z context_length min_tokens_remaining i else id)
               ((if initialized z
                 then adjust z context_length min_tokens_remaining i else id) x))
       <$> logits !! i) ∧
  (accelerate_logits one_token_accelerator [F32.zero] 0 200 = [F32.lit 3 4] ∧
   accelerate_logits one_token_accelerator
     (accelerate_logits one_token_accelerator [F32.zero] 0 200) 0 200 = [F32.c1_5] ∧
   F32.ltb (total_shift [F32.zero] [F32.lit 3 4])
           (total_shift [F32.zero] [F32.c1_5]) = true) ∧
  (∀ z (logits : list float32) context_length min_tokens_remaining,
     initialized z = false →
     accelerate_logits z
       (accelerate_logits z logits context_length min_tokens_remaining)
       context_length min_tokens_remaining = logits).
Proof.
  split; [|split].
  - intros z logits c r i. rewrite !accelerate_logits_lookup.
    by destruct (logits !! i).
  - by vm_compute.
  - intros z logits c r Hz. unfold accelerate_logits. by rewrite Hz.
Qed.

(** ** Instances at concrete vocabularies *)

(** C2 at [insertion_sort]. *)
Lemma vocab1000_categories_witness :
  for_all_libm (λ powf logf,
    rank_order insertion_sort vocab1000 !! 0%nat = Some 0 ∧
    size (common_tokens
            (initialize powf logf insertion_sort vocab1000 (default_accelerator 0)))
    = 100%nat ∧
    size (rare_tokens
            (initialize powf logf insertion_sort vocab1000 (default_accelerator 0)))
    = 199%nat).
Proof.
  intros powf logf.
  apply (vocab1000_categories powf logf insertion_sort (default_accelerator 0)).
  apply insertion_sort_post.
Defined.




(** C9 at the vocabulary of 1000 tokens, from a default-constructed
    object. *)
Lemma common_rare_disjoint_witness :
  for_all_libm (λ powf logf,
    (∀ t, ¬ (t ∈ common_tokens
                   (initialize powf logf insertion_sort vocab1000 (default_accelerator 0)) ∧
             t ∈ rare_tokens
                   (initialize powf logf insertion_sort vocab1000 (default_accelerator 0)))) ∧
    (∀ (i : nat) (f : Z),
       token_flags (initialize powf logf insertion_sort vocab1000 (default_accelerator 0))
         !! i = Some f →
       has_flag f IS_COMMON && has_flag f IS_RARE = false)).
Proof.
  intros powf logf.
  destruct (common_rare_disjoint powf logf insertion_sort vocab1000
              (default_accelerator 0)) as [Hsets Hflags].
  - cbn. lia.
  - unfold int_max. cbn. lia.
  - apply insertion_sort_perm.
  - split; [exact Hsets|]. apply Hflags. reflexivity.
Defined.

(** C6 at [small_vocab]: token 1 is matched by the role guard and its
    text has a guard keyword; an unknown role and mood give empty sets. *)
Lemma update_context_matched_sets_witness :
  (∃ keyword,
     keyword ∈ ["guard"; "watch"; "protect"; "duty"; "patrol"; "secure"; "defend"]%string ∧
     occurs_in keyword (to_lower (token_get_text small_vocab 1))) ∧
  current_role_tokens
    (update_context "unknown" "unknown" small_vocab (default_accelerator 6)) = ∅ ∧
  current_mood_tokens
    (update_context "unknown" "unknown" small_vocab (default_accelerator 6)) = ∅.
Proof.
  destruct update_context_matched_sets as (_ & Hguard & Hunknown). split.
  - apply (Hguard "friendly"%string small_vocab (default_accelerator 6) 1).
    apply (bool_decide_unpack _). by vm_compute.
  - apply Hunknown; cbn; intros H;
      repeat (apply elem_of_cons in H as [H|H]; [discriminate H|]);
      by apply elem_of_nil in H.
Defined.

(** C8: on an object that is not initialized, two calls move the logits
    no farther than one call: not at all.  The same holds on the one-token
    object for a logit of [2^30], where adding the role boost 0.75 rounds
    back to [2^30]. *)
Lemma second_call_shift_not_larger :
  (accelerate_logits (default_accelerator 3) [F32.one; F32.two; F32.c0_5] 0 200
   = [F32.one; F32.two; F32.c0_5] ∧
   accelerate_logits (default_accelerator 3)
     (accelerate_logits (default_accelerator 3) [F32.one; F32.two; F32.c0_5] 0 200) 0 200
   = [F32.one; F32.two; F32.c0_5] ∧
   F32.ltb
     (total_shift [F32.one; F32.two; F32.c0_5]
        (accelerate_logits (default_accelerator 3) [F32.one; F32.two; F32.c0_5] 0 200))
     (total_shift [F32.one; F32.two; F32.c0_5]
        (accelerate_logits (default_accelerator 3)
           (accelerate_logits (default_accelerator 3)
              [F32.one; F32.two; F32.c0_5] 0 200) 0 200))
   = false) ∧
  (accelerate_logits one_token_accelerator [F32.of_int (2 ^ 30)] 0 200
   = [F32.of_int (2 ^ 30)] ∧
   accelerate_logits one_token_accelerator
     (accelerate_logits one_token_accelerator [F32.of_int (2 ^ 30)] 0 200) 0 200
   = [F32.of_int (2 ^ 30)]).
Proof. repeat split; by vm_compute. Qed.

(** ** The repetition penalty *)





(** * More of the class: what [initialize] builds *)

Lemma str_find_char_spec (s : string) (c : ascii) :
  found (str_find_char s c) = true ↔ has_char c s.
Proof.
  unfold str_find_char, has_char. generalize 0%nat.
  induction s as [|a s IH]; intros pos; cbn [find_char_from].
  - split; [done|]. intros (pre&post&H). by destruct pre.
  - destruct (Ascii.eqb_spec a c) as [->|Hne].
    + split; [|done]. intros _. by exists EmptyString, s.
    + rewrite IH. split.
      * intros (pre&post&->). by exists (String a pre), post.
      * intros (pre&post&H). destruct pre as [|a' pre]; cbn in H.
        -- injection H as ? ?. congruence.
        -- injection H as -> ->. eauto.
Qed.

Lemma str_find_first_of_spec (s : string) (chars : list ascii) :
  found (str_find_first_of s chars) = true ↔ ∃ c, c ∈ chars ∧ has_char c s.
Proof.
  unfold str_find_first_of, has_char. generalize 0%nat.
  induction s as [|a s IH]; intros pos; cbn [find_first_of_from].
  - split; [done|]. intros (c&_&pre&post&H). by destruct pre.
  - destruct (existsb (Ascii.eqb a) chars) eqn:Hex.
    + split; [|done]. intros _. apply existsb_exists in Hex as (c&Hc&Heq).
      apply Ascii.eqb_eq in Heq as <-. exists a. split; [by apply list_elem_of_In|].
      by exists EmptyString, s.
    + rewrite IH. split.
      * intros (c&Hc&pre&post&->). exists c. split; [done|].
        by exists (String a pre), post.
      * intros (c&Hc&pre&post&H). exists c. split; [done|].
        destruct pre as [|a' pre]; cbn in H.
        -- injection H as -> ->. exfalso.
           assert (existsb (Ascii.eqb c) chars = true); [|congruence].
           apply existsb_exists. exists c. split; [by apply list_elem_of_In|].
           apply Ascii.eqb_refl.
        -- injection H as -> ->. eauto.
Qed.

Section CategoryLoopMore.
Context (powf : float32 → float32 → float32) (logf : float32 → float32).
Context (vocab : llama_vocab) (cc rc : Z) (sorted : list (Z * float32)).

Local Abbreviation body := (categorize_token powf logf vocab cc rc sorted).

Lemma categorize_loop_punctuation ranks z t :
  t ∈ punctuation (fold_left body ranks z) ↔
  t ∈ punctuation z ∨
  ∃ rank e, rank ∈ ranks ∧ sorted !! Z.to_nat rank = Some e ∧ e.1 = t ∧
            found (str_find_first_of (token_get_text vocab t) punct_chars) = true.
Proof.
  revert z. induction ranks as [|r ranks IH]; intros z; cbn [fold_left].
  - split; [tauto|]. intros [?|(?&?&H&_)]; [done|]. by apply elem_of_nil in H.
  - rewrite IH. setoid_rewrite elem_of_cons. unfold categorize_token.
    destruct (sorted !! Z.to_nat r) as [e|] eqn:He.
    + cbn [punctuation set_tables].
      destruct (found (str_find_first_of (token_get_text vocab e.1) punct_chars)) eqn:Hp.
      * rewrite elem_of_union, elem_of_singleton. split.
        -- intros [[->|?]|(rank&e'&?&?&?&?)]; [right|by left|right].
           ++ exists r, e. by repeat split; [left|..].
           ++ exists rank, e'. by repeat split; [right|..].
        -- intros [?|(rank&e'&[->|?]&He'&<-&?)]; [by left; right| |].
           ++ left; left. congruence.
           ++ right. exists rank, e'. by repeat split.
      * split.
        -- intros [?|(rank&e'&?&?&?&?)]; [by left|right].
           exists rank, e'. by repeat split; [right|..].
        -- intros [?|(rank&e'&[->|?]&He'&<-&Hf)]; [by left| |].
           ++ exfalso. assert (e' = e) as -> by congruence. congruence.
           ++ right. exists rank, e'. by repeat split.
    + split.
      * intros [?|(rank&e'&?&?&?&?)]; [by left|right].
        exists rank, e'. by repeat split; [right|..].
      * intros [?|(rank&e'&[->|?]&He'&?&?)]; [by left|congruence|].
        right. exists rank, e'. by repeat split.
Qed.

Lemma categorize_loop_dialogue ranks z t :
  t ∈ dialogue_tokens (fold_left body ranks z) ↔
  t ∈ dialogue_tokens z ∨
  ∃ rank e, rank ∈ ranks ∧ sorted !! Z.to_nat rank = Some e ∧ e.1 = t ∧
            found (str_find_first_of (token_get_text vocab t) punct_chars)
            && found (str_find_char (token_get_text vocab t) dquote) = true.
Proof.
  revert z. induction ranks as [|r ranks IH]; intros z; cbn [fold_left].
  - split; [tauto|]. intros [?|(?&?&H&_)]; [done|]. by apply elem_of_nil in H.
  - rewrite IH. setoid_rewrite elem_of_cons. unfold categorize_token.
    destruct (sorted !! Z.to_nat r) as [e|] eqn:He.
    + cbn [dialogue_tokens set_tables].
      destruct (found (str_find_first_of (token_get_text vocab e.1) punct_chars)
                && found (str_find_char (token_get_text vocab e.1) dquote)) eqn:Hp.
      * rewrite elem_of_union, elem_of_singleton. split.
        -- intros [[->|?]|(rank&e'&?&?&?&?)]; [right|by left|right].
           ++ exists r, e. by repeat split; [left|..].
           ++ exists rank, e'. by repeat split; [right|..].
        -- intros [?|(rank&e'&[->|?]&He'&<-&?)]; [by left; right| |].
           ++ left; left. congruence.
           ++ right. exists rank, e'. by repeat split.
      * split.
        -- intros [?|(rank&e'&?&?&?&?)]; [by left|right].
           exists rank, e'. by repeat split; [right|..].
        -- intros [?|(rank&e'&[->|?]&He'&<-&Hf)]; [by left| |].
           ++ exfalso. assert (e' = e) as -> by congruence. congruence.
           ++ right. exists rank, e'. by repeat split.
    + split.
      * intros [?|(rank&e'&?&?&?&?)]; [by left|right].
        exists rank, e'. by repeat split; [right|..].
      * intros [?|(rank&e'&[->|?]&He'&?&?)]; [by left|congruence|].
        right. exists rank, e'. by repeat split.
Qed.
End CategoryLoopMore.

Section InitializeMore.
Context (powf : float32 → float32 → float32) (logf : float32 → float32).
Context (std_sort : list (Z * float32) → list (Z * float32)).
Context (vocab : llama_vocab).

Local Abbreviation init := (initialize powf logf std_sort).
Local Abbreviation n := (n_tokens vocab).
Local Abbreviation sorted := (std_sort (token_scores vocab (n_tokens vocab))).

Hypothesis n_range : 0 ≤ n ≤ int_max.
Hypothesis sort_perm : sorted ≡ₚ token_scores vocab n.

Lemma vocab_size_is_n : wrap_int n = n.
Proof. apply wrap_int_small. unfold int_min, int_max in *. lia. Qed.

Lemma sorted_length : length sorted = Z.to_nat n.
Proof.
  rewrite sort_perm. unfold token_scores. by rewrite length_fmap, length_seqZ.
Qed.

Lemma sorted_ids_NoDup : NoDup sorted.*1.
Proof. rewrite sort_perm, token_scores_ids. apply NoDup_seqZ. Qed.

Lemma sorted_lookup_range (r : nat) e :
  sorted !! r = Some e → 0 ≤ e.1 < n ∧ (r < Z.to_nat n)%nat.
Proof.
  intros He. split.
  - apply list_elem_of_lookup_2 in He. rewrite sort_perm in He.
    by apply token_scores_elem in He as [? _].
  - rewrite <- sorted_length. by eapply lookup_lt_Some.
Qed.

Lemma sorted_rank_of_token t :
  0 ≤ t < n → ∃ (r : nat) e, sorted !! r = Some e ∧ e.1 = t.
Proof.
  intros Ht.
  assert (Hin : (t, token_get_score vocab t) ∈ sorted).
  { rewrite sort_perm. by apply token_scores_elem. }
  apply list_elem_of_lookup_1 in Hin as [r Hr]. by exists r, (t, token_get_score vocab t).
Qed.

Lemma initialize_punctuation z t :
  t ∈ punctuation (init vocab z) ↔
  0 ≤ t < n ∧ found (str_find_first_of (token_get_text vocab t) punct_chars) = true.
Proof.
  unfold initialize. rewrite vocab_size_is_n.
  cbn [punctuation set_flags_initialized]. rewrite categorize_loop_punctuation.
  cbn [punctuation set_tables]. setoid_rewrite elem_of_seqZ. split.
  - intros [H|(rank&e&Hr&He&<-&Hf)]; [set_solver|].
    by apply sorted_lookup_range in He as [? _].
  - intros [Ht Hf]. right. destruct (sorted_rank_of_token t Ht) as (r&e&He&Het).
    exists (Z.of_nat r), e. rewrite Nat2Z.id.
    apply sorted_lookup_range in He as Hr. repeat split; try done; lia.
Qed.

Lemma initialize_dialogue z t :
  t ∈ dialogue_tokens (init vocab z) ↔
  0 ≤ t < n ∧ found (str_find_char (token_get_text vocab t) dquote) = true.
Proof.
  unfold initialize. rewrite vocab_size_is_n.
  cbn [dialogue_tokens set_flags_initialized]. rewrite categorize_loop_dialogue.
  cbn [dialogue_tokens set_tables]. setoid_rewrite elem_of_seqZ. split.
  - intros [H|(rank&e&Hr&He&<-&Hf)]; [set_solver|].
    apply andb_true_iff in Hf as [_ Hf].
    by apply sorted_lookup_range in He as [? _].
  - intros [Ht Hf]. right. destruct (sorted_rank_of_token t Ht) as (r&e&He&Het).
    exists (Z.of_nat r), e. rewrite Nat2Z.id.
    apply sorted_lookup_range in He as Hr. repeat split; try done; try lia.
    apply andb_true_iff. split; [|done].
    apply str_find_first_of_spec. exists dquote. split.
    + unfold punct_chars. set_solver.
    + by apply str_find_char_spec.
Qed.

(** X1: the punctuation set and the dialogue set that [initialize] builds
    are decided by the token text alone: a token is in the punctuation set
    exactly when its id is below the vocabulary size and one of the five
    punctuation characters occurs in its text, and in the dialogue set
    exactly when the quotation mark occurs in its text. *)
Theorem punctuation_dialogue_by_text z t :
  (t ∈ punctuation (init vocab z) ↔
   0 ≤ t < n ∧ ∃ c, c ∈ punct_chars ∧ has_char c (token_get_text vocab t)) ∧
  (t ∈ dialogue_tokens (init vocab z) ↔
   0 ≤ t < n ∧ has_char dquote (token_get_text vocab t)).
Proof.
  split.
  - by rewrite initialize_punctuation, str_find_first_of_spec.
  - by rewrite initialize_dialogue, str_find_char_spec.
Qed.

Lemma initialize_common_as_list z :
  common_tokens (init vocab z)
  = list_to_set (take (Z.to_nat (Z.min 500 (n / 10))) sorted.*1).
Proof.
  apply set_eq. intros t.
  rewrite elem_of_list_to_set, elem_of_take.
  pose proof (initialize_common powf logf std_sort vocab z t) as H.
  cbn zeta in H. rewrite H, vocab_size_is_n, Z.quot_div_nonneg by lia. split.
  - intros (rank&e&Hr&Hcut&He&<-). exists (Z.to_nat rank).
    rewrite list_lookup_fmap, He. split; [done|lia].
  - intros (i&Hi&Hlt). rewrite list_lookup_fmap in Hi.
    destruct (sorted !! i) as [e|] eqn:He; [|done]. cbn in Hi. injection Hi as <-.
    apply sorted_lookup_range in He as Hr.
    exists (Z.of_nat i), e. rewrite Nat2Z.id. repeat split; try done; lia.
Qed.

Lemma initialize_rare_as_list z :
  n * 4 ≤ int_max →
  rare_tokens (init vocab z)
  = list_to_set (drop (Z.to_nat (n * 4 / 5 + 1)) sorted.*1).
Proof.
  intros Hn4. apply set_eq. intros t.
  rewrite elem_of_list_to_set, list_elem_of_lookup. setoid_rewrite lookup_drop.
  pose proof (initialize_rare powf logf std_sort vocab z t) as H.
  cbn zeta in H. rewrite H, vocab_size_is_n.
  rewrite wrap_int_small by (unfold int_min, int_max in *; lia).
  rewrite Z.quot_div_nonneg by lia.
  assert (0 ≤ n * 4 / 5) by (apply Z.div_pos; lia). split.
  - intros (rank&e&Hr&Hcut&He&<-).
    exists (Z.to_nat rank - Z.to_nat (n * 4 / 5 + 1))%nat.
    replace (Z.to_nat (n * 4 / 5 + 1) + (Z.to_nat rank - Z.to_nat (n * 4 / 5 + 1)))%nat
      with (Z.to_nat rank) by lia.
    by rewrite list_lookup_fmap, He.
  - intros (i&Hi). rewrite list_lookup_fmap in Hi.
    destruct (sorted !! (Z.to_nat (n * 4 / 5 + 1) + i)%nat) as [e|] eqn:He; [|done].
    cbn in Hi. injection Hi as <-. apply sorted_lookup_range in He as Hr.
    exists (Z.of_nat (Z.to_nat (n * 4 / 5 + 1) + i)), e. rewrite Nat2Z.id.
    repeat split; try done; lia.
Qed.

(** X2: the sizes of the two rank bands.  The COMMON set has
    [min(500, n / 10)] tokens and the RARE set has [n - 1 - n * 4 / 5]
    tokens (none when that is not positive): one token fewer than the
    bottom fifth when 5 divides [n]. *)
Theorem common_rare_sizes z :
  n * 4 ≤ int_max →
  size (common_tokens (init vocab z)) = Z.to_nat (Z.min 500 (n / 10)) ∧
  size (rare_tokens (init vocab z)) = Z.to_nat (rare_band n).
Proof.
  intros Hn4. pose proof sorted_ids_NoDup as Hnd. pose proof sorted_length as Hlen.
  assert (0 ≤ n / 10 ≤ n).
  { split; [apply Z.div_pos; lia|]. apply Z.div_le_upper_bound; lia. }
  assert (0 ≤ n * 4 / 5 ≤ n).
  { split; [apply Z.div_pos; lia|]. apply Z.div_le_upper_bound; lia. }
  split.
  - rewrite initialize_common_as_list, size_list_to_set.
    + rewrite length_take, length_fmap, Hlen. lia.
    + rewrite <- (take_drop (Z.to_nat (Z.min 500 (n / 10))) sorted.*1) in Hnd.
      by apply NoDup_app in Hnd as [? _].
  - rewrite initialize_rare_as_list by done. rewrite size_list_to_set.
    + rewrite length_drop, length_fmap, Hlen. unfold rare_band. lia.
    + rewrite <- (take_drop (Z.to_nat (n * 4 / 5 + 1)) sorted.*1) in Hnd.
      by apply NoDup_app in Hnd as (_&_&?).
Qed.
End InitializeMore.

(** ** The bias table and the flag bytes *)

Section BiasLoop.
Context (powf : float32 → float32 → float32) (logf : float32 → float32).
Context (vocab : llama_vocab) (cc rc : Z) (sorted : list (Z * float32)).

Lemma bias_step_spec lg rank :
  bias_step powf logf vocab cc rc sorted lg rank
  = match bias_write powf logf sorted rank with
    | Some f => upd f lg (bias_key sorted rank)
    | None => lg
    end.
Proof.
  unfold bias_step, bias_write, bias_key, categorize_token, upd.
  destruct (sorted !! Z.to_nat rank) as [e|]; [|done].
  cbn [base_logit_bias set_tables]. destruct (0 <=? e.1); [|done].
  apply list_insert_alter.
Qed.

Lemma categorize_loop_bias ranks z :
  base_logit_bias (fold_left (categorize_token powf logf vocab cc rc sorted) ranks z)
  = fold_left (bias_step powf logf vocab cc rc sorted) ranks (base_logit_bias z).
Proof.
  revert z. induction ranks as [|r ranks IH]; intros z; cbn [fold_left]; [done|].
  rewrite IH. f_equal. unfold bias_step, categorize_token.
  by destruct (sorted !! Z.to_nat r).
Qed.
End BiasLoop.

Lemma accelerator_eq (z1 z2 : ZipfAccelerator) :
  base_logit_bias z1 = base_logit_bias z2 →
  common_tokens z1 = common_tokens z2 → rare_tokens z1 = rare_tokens z2 →
  punctuation z1 = punctuation z2 → dialogue_tokens z1 = dialogue_tokens z2 →
  current_role_tokens z1 = current_role_tokens z2 →
  current_mood_tokens z1 = current_mood_tokens z2 →
  vocab_size z1 = vocab_size z2 → initialized z1 = initialized z2 →
  conv_state z1 = conv_state z2 → params z1 = params z2 →
  token_flags z1 = token_flags z2 →
  z1 = z2.
Proof. destruct z1, z2; cbn; intros; by subst. Qed.

Lemma lor_lor_same (f m : Z) : Z.lor (Z.lor f m) m = Z.lor f m.
Proof. by rewrite <- Z.lor_assoc, Z.lor_diag. Qed.

Lemma land_lor_keeps (f m : Z) : Z.land (Z.lor f m) f = f.
Proof.
  apply Z.bits_inj'. intros k Hk. rewrite Z.land_spec, Z.lor_spec.
  by destruct (Z.testbit f k), (Z.testbit m k).
Qed.

Lemma or_flags_lookup (bit : Z) (s : gset Z) (flags : list Z) (i : nat) :
  or_flags bit s flags !! i
  = (λ f, Z.lor f (if decide (Z.of_nat i ∈ s) then bit else 0)) <$> flags !! i.
Proof.
  unfold or_flags. rewrite set_loop_lookup_all.
  destruct (decide (Z.of_nat i ∈ s)); [done|].
  destruct (flags !! i) as [f|]; cbn; [|done]. by rewrite Z.lor_0_r.
Qed.

Lemma or_flags_length (bit : Z) (s : gset Z) (flags : list Z) :
  length (or_flags bit s flags) = length flags.
Proof.
  unfold or_flags. generalize (elements s). intros l. revert flags.
  induction l as [|t l IH]; intros flags; cbn [fold_left]; [done|].
  by rewrite IH, upd_length.
Qed.

Section InitializeFlags.
Context (powf : float32 → float32 → float32) (logf : float32 → float32).
Context (std_sort : list (Z * float32) → list (Z * float32)).

Local Abbreviation init := (initialize powf logf std_sort).

Lemma initialize_frame vocab z :
  initialized (init vocab z) = true ∧
  vocab_size (init vocab z) = wrap_int (n_tokens vocab) ∧
  current_role_tokens (init vocab z) = current_role_tokens z ∧
  current_mood_tokens (init vocab z) = current_mood_tokens z ∧
  conv_state (init vocab z) = conv_state z ∧
  params (init vocab z) = params z.
Proof.
  unfold initialize.
  cbn [initialized vocab_size current_role_tokens current_mood_tokens conv_state
       params set_flags_initialized].
  match goal with |- context [fold_left ?f ?l ?z0] =>
    destruct (categorize_loop_frame powf logf vocab
                (Z.min 500 (wrap_int (n_tokens vocab) ÷ 10))
                (wrap_int (wrap_int (n_tokens vocab) * 4) ÷ 5)
                (std_sort (token_scores vocab (wrap_int (n_tokens vocab))))
                l z0) as (->&->&->&_&->&->&_)
  end.
  done.
Qed.

Lemma initialize_flags_lookup vocab z (i : nat) :
  token_flags (init vocab z) !! i
  = (λ f, Z.lor f (category_mask (init vocab z) (Z.of_nat i)))
    <$> resize (Z.to_nat (wrap_int (n_tokens vocab))) 0 (token_flags z) !! i.
Proof.
  unfold category_mask, initialize.
  cbn [token_flags common_tokens rare_tokens punctuation dialogue_tokens
       set_flags_initialized].
  set (vs := wrap_int (n_tokens vocab)).
  set (z0 := set_tables _ ∅ ∅ ∅ ∅ _).
  set (ranks := seqZ 0 vs).
  set (z1 := fold_left _ ranks z0).
  assert (Hflags : token_flags z1 = token_flags z).
  { destruct (categorize_loop_frame powf logf vocab (Z.min 500 (vs ÷ 10))
                (wrap_int (vs * 4) ÷ 5) (std_sort (token_scores vocab vs)) ranks z0)
      as (_&_&_&_&_&_&Hfl).
    unfold z1. by rewrite Hfl. }
  rewrite Hflags, !or_flags_lookup.
  destruct (resize (Z.to_nat vs) 0 (token_flags z) !! i) as [f|]; cbn; [|done].
  by rewrite <- !Z.lor_assoc.
Qed.

Lemma initialize_flags_length vocab z :
  length (token_flags (init vocab z)) = Z.to_nat (wrap_int (n_tokens vocab)).
Proof.
  unfold initialize. cbn [token_flags set_flags_initialized].
  by rewrite !or_flags_length, length_resize.
Qed.

(** X3: [initialize] never clears a flag bit.  An entry of [token_flags]
    that the object already had (below the new vocabulary size) comes out
    as its old value or-ed with the bits of the token's new categories, so
    every bit set before is still set: [resize] keeps the old bytes and the
    four loops only use [|=]. *)
Theorem initialize_keeps_old_flags vocab z (i : nat) (f : Z) :
  token_flags z !! i = Some f →
  (i < Z.to_nat (wrap_int (n_tokens vocab)))%nat →
  token_flags (init vocab z) !! i
  = Some (Z.lor f (category_mask (init vocab z) (Z.of_nat i))) ∧
  Z.land (Z.lor f (category_mask (init vocab z) (Z.of_nat i))) f = f.
Proof.
  intros Hf Hi. split; [|apply land_lor_keeps].
  rewrite initialize_flags_lookup, lookup_resize, Hf; [done..|].
  by eapply lookup_lt_Some.
Qed.
End InitializeFlags.

Section InitializeTables.
Context (powf : float32 → float32 → float32) (logf : float32 → float32).
Context (std_sort : list (Z * float32) → list (Z * float32)).
Context (vocab : llama_vocab).

Local Abbreviation init := (initialize powf logf std_sort).
Local Abbreviation n := (n_tokens vocab).
Local Abbreviation sorted := (std_sort (token_scores vocab (n_tokens vocab))).

Hypothesis n_range : 0 ≤ n ≤ int_max.
Hypothesis sort_perm : sorted ≡ₚ token_scores vocab n.

Lemma bias_keys_are_ids : bias_key sorted <$> seqZ 0 n = sorted.*1.
Proof.
  pose proof (sorted_length std_sort vocab sort_perm) as Hlen.
  apply list_eq. intros i. rewrite !list_lookup_fmap.
  destruct (decide (i < Z.to_nat n)%nat) as [Hi|Hi].
  - rewrite lookup_seqZ_lt by lia. cbn. unfold bias_key.
    rewrite Z.add_0_l, Nat2Z.id.
    destruct (lookup_lt_is_Some_2 sorted i) as [e He]; [lia|]. by rewrite He.
  - rewrite lookup_seqZ_ge by lia. rewrite lookup_ge_None_2; [done|lia].
Qed.

Lemma initialize_bias_loop z :
  base_logit_bias (init vocab z)
  = fold_left (bias_step powf logf vocab (Z.min 500 (n ÷ 10)) (wrap_int (n * 4) ÷ 5) sorted)
              (seqZ 0 n) (resize (Z.to_nat n) F32.zero (base_logit_bias z)).
Proof.
  unfold initialize. rewrite (vocab_size_is_n vocab n_range).
  cbn [base_logit_bias set_flags_initialized]. by rewrite categorize_loop_bias.
Qed.

Lemma bias_loop_at_rank (lg : list float32) cc rc (r : nat) e :
  sorted !! r = Some e →
  fold_left (bias_step powf logf vocab cc rc sorted) (seqZ 0 n) lg !! Z.to_nat e.1
  = (λ _, rank_bias powf logf (Z.of_nat r)) <$> lg !! Z.to_nat e.1.
Proof.
  intros He.
  destruct (sorted_lookup_range std_sort vocab sort_perm r e He) as [Hrange Hr].
  eapply (loop_lookup_touched (bias_key sorted) (bias_write powf logf sorted) _
            (bias_step_spec powf logf vocab cc rc sorted)) with (x := Z.of_nat r).
  - rewrite bias_keys_are_ids. apply (sorted_ids_NoDup std_sort vocab sort_perm).
  - apply elem_of_seqZ. lia.
  - unfold bias_key. rewrite Nat2Z.id, He. lia.
  - unfold bias_write. by rewrite Nat2Z.id, He.
Qed.

Lemma initialize_bias_length z :
  length (base_logit_bias (init vocab z)) = Z.to_nat n.
Proof.
  rewrite initialize_bias_loop.
  rewrite (loop_length (bias_key sorted) (bias_write powf logf sorted) _
             (bias_step_spec powf logf vocab _ _ sorted)).
  apply length_resize.
Qed.

Lemma initialize_bias_at_rank z (r : nat) e :
  sorted !! r = Some e →
  base_logit_bias (init vocab z) !! Z.to_nat e.1
  = Some (rank_bias powf logf (Z.of_nat r)).
Proof.
  intros He. rewrite initialize_bias_loop, (bias_loop_at_rank _ _ _ r e He).
  destruct (sorted_lookup_range std_sort vocab sort_perm r e He) as [Hrange Hr].
  destruct (lookup_lt_is_Some_2 (resize (Z.to_nat n) F32.zero (base_logit_bias z))
              (Z.to_nat e.1)) as [x ->]; [|done].
  rewrite length_resize. lia.
Qed.

(** X4: the bias table that [initialize] leaves has one entry per token,
    and the entry of the token that the sort put at rank [r] is
    [log(1 / pow(r + 1, 0.3))], whatever the table held before. *)
Theorem bias_of_rank z (r : nat) e :
  sorted !! r = Some e →
  length (base_logit_bias (init vocab z)) = Z.to_nat n ∧
  base_logit_bias (init vocab z) !! Z.to_nat e.1
  = Some (logf (F32.div F32.one
                  (powf (F32.add (F32.of_int (Z.of_nat r)) F32.one) F32.c0_3))).
Proof.
  intros He. split; [apply initialize_bias_length | by apply initialize_bias_at_rank].
Qed.

Lemma initialize_sets_independent z z' :
  common_tokens (init vocab z) = common_tokens (init vocab z') ∧
  rare_tokens (init vocab z) = rare_tokens (init vocab z') ∧
  punctuation (init vocab z) = punctuation (init vocab z') ∧
  dialogue_tokens (init vocab z) = dialogue_tokens (init vocab z').
Proof.
  repeat split; apply set_eq; intros t.
  - pose proof (initialize_common powf logf std_sort vocab z t) as H1.
    pose proof (initialize_common powf logf std_sort vocab z' t) as H2.
    cbn zeta in *. by rewrite H1, H2.
  - pose proof (initialize_rare powf logf std_sort vocab z t) as H1.
    pose proof (initialize_rare powf logf std_sort vocab z' t) as H2.
    cbn zeta in *. by rewrite H1, H2.
  - by rewrite !(initialize_punctuation powf logf std_sort vocab n_range sort_perm).
  - by rewrite !(initialize_dialogue powf logf std_sort vocab n_range sort_perm).
Qed.

(** X5: [initialize] is idempotent: a second call with the same
    vocabulary leaves the object exactly as the first call left it. *)
Theorem initialize_idempotent z :
  initialize powf logf std_sort vocab (initialize powf logf std_sort vocab z)
  = initialize powf logf std_sort vocab z.
Proof.
  destruct (initialize_sets_independent (init vocab z) z) as (Hc&Hr&Hp&Hd).
  destruct (initialize_frame powf logf std_sort vocab z) as (Hi&Hv&Hro&Hmo&Hcs&Hpa).
  destruct (initialize_frame powf logf std_sort vocab (init vocab z))
    as (Hi'&Hv'&Hro'&Hmo'&Hcs'&Hpa').
  apply accelerator_eq; try congruence.
  - (* the bias table *)
    apply list_eq. intros i.
    destruct (decide (i < Z.to_nat n)%nat) as [Hlt|Hge].
    + destruct (sorted_rank_of_token std_sort vocab sort_perm (Z.of_nat i))
        as (r&e&He&Het); [lia|].
      replace i with (Z.to_nat e.1) by lia.
      by rewrite !(initialize_bias_at_rank _ r e He).
    + rewrite !lookup_ge_None_2; [done|rewrite initialize_bias_length; lia..].
  - (* the flag bytes *)
    apply list_eq. intros i.
    rewrite (initialize_flags_lookup powf logf std_sort vocab (init vocab z)).
    rewrite resize_all_alt
      by (by rewrite (initialize_flags_length powf logf std_sort)).
    rewrite (initialize_flags_lookup powf logf std_sort vocab z).
    unfold category_mask. rewrite Hc, Hr, Hp, Hd.
    destruct (resize _ 0 (token_flags z) !! i) as [f|]; cbn; [|done].
    by rewrite lor_lor_same.
Qed.

(** X6: in the object [initialize] returns, a token of the COMMON set is
    always contextually appropriate and a token of the RARE set never is,
    whatever the role and mood sets hold; any other token is appropriate
    exactly when it is in the role set or the mood set. *)
Theorem appropriate_after_initialize z t :
  n * 4 ≤ int_max →
  (t ∈ common_tokens (init vocab z) → is_contextually_appropriate (init vocab z) t = true) ∧
  (t ∈ rare_tokens (init vocab z) → is_contextually_appropriate (init vocab z) t = false) ∧
  (t ∉ common_tokens (init vocab z) → t ∉ rare_tokens (init vocab z) →
   is_contextually_appropriate (init vocab z) t
   = bool_decide (t ∈ current_role_tokens z ∨ t ∈ current_mood_tokens z)).
Proof.
  intros Hn4.
  pose proof (initialize_common_rare_apart powf logf std_sort vocab z t
                (proj1 n_range) Hn4 sort_perm) as Hapart.
  destruct (initialize_frame powf logf std_sort vocab z) as (_&_&Hro&Hmo&_&_).
  unfold is_contextually_appropriate. rewrite Hro, Hmo. repeat split.
  - intros Hc. rewrite decide_False by tauto. case_decide; [done|].
    by apply bool_decide_eq_true_2.
  - intros Hr. by rewrite decide_True.
  - intros Hc Hr. rewrite decide_False by done. case_decide.
    + by rewrite bool_decide_eq_true_2.
    + rewrite bool_decide_eq_false_2 by done. symmetry. by apply bool_decide_eq_false_2.
Qed.
End InitializeTables.

(** * More of the class: turns and the logit buffer *)

Lemma clamp_within (v : float32) :
  F32.ltb (F32.clamp v F32.c0_5 F32.two) F32.c0_5 = false ∧
  F32.ltb F32.two (F32.clamp v F32.c0_5 F32.two) = false.
Proof.
  unfold F32.clamp. destruct (F32.ltb v F32.c0_5) eqn:Hlo.
  - by vm_compute.
  - destruct (F32.ltb F32.two v) eqn:Hhi; [by vm_compute|done].
Qed.

(** X7: after every [update_context] the complexity factor is neither
    below 0.5 nor above 2.0, whatever it was before, and the other two
    adaptive parameters are as they were. *)
Theorem complexity_factor_clamped (role mood : string) vocab z :
  F32.ltb (complexity_factor (params (update_context role mood vocab z))) F32.c0_5 = false ∧
  F32.ltb F32.two (complexity_factor (params (update_context role mood vocab z))) = false ∧
  engagement_modifier (params (update_context role mood vocab z))
  = engagement_modifier (params z) ∧
  pattern_strength (params (update_context role mood vocab z))
  = pattern_strength (params z).
Proof.
  unfold update_context, update_complexity_factor.
  cbn [params set_context complexity_factor engagement_modifier pattern_strength].
  split; [|split]; [apply clamp_within..|done].
Qed.

Lemma update_context_empty_history (role mood : string) vocab z :
  recent_lengths (conv_state z) = [] →
  recent_lengths (conv_state (update_context role mood vocab z)) = [] ∧
  complexity_factor (params (update_context role mood vocab z))
  = decay_step (complexity_factor (params z)).
Proof.
  intros Hempty. unfold update_context, update_complexity_factor, update_conv_state.
  cbn [conv_state params set_context recent_lengths complexity_factor].
  rewrite Hempty. cbn [length Nat.leb]. split; [done|].
  unfold decay_step. by change (F32.ltb F32.zero F32.c20) with true.
Qed.

Lemma run_turns_empty_history calls z :
  recent_lengths (conv_state z) = [] →
  recent_lengths (conv_state (run_turns calls z)) = [] ∧
  complexity_factor (params (run_turns calls z))
  = Nat.iter (length calls) decay_step (complexity_factor (params z)).
Proof.
  revert z. induction calls as [|call calls IH]; intros z Hempty; [done|].
  unfold run_turns in *. cbn [fold_left length].
  destruct (update_context_empty_history call.1.1 call.1.2 call.2 z Hempty) as [He Hc].
  destruct (IH _ He) as [IH1 IH2]. split; [done|].
  by rewrite IH2, Hc, Nat.iter_succ_r.
Qed.

Lemma decay_reaches_floor (k : nat) :
  Nat.iter (7 + k) decay_step F32.one = F32.c0_5.
Proof.
  induction k as [|k IH]; [by vm_compute|].
  replace (7 + S k)%nat with (S (7 + k)) by lia.
  rewrite Nat.iter_succ, IH. by vm_compute.
Qed.

(** X8: from an object with an empty history of response lengths and a
    complexity factor of 1.0, the factor is still above 0.5 after up to
    six turns, is exactly 0.5 after the seventh, and stays 0.5 however
    many turns follow, whatever the roles, moods and replies were; the
    history is still empty. *)
Theorem complexity_factor_decays calls z :
  recent_lengths (conv_state z) = [] →
  complexity_factor (params z) = F32.one →
  recent_lengths (conv_state (run_turns calls z)) = [] ∧
  ((length calls ≤ 6)%nat →
   F32.ltb F32.c0_5 (complexity_factor (params (run_turns calls z))) = true) ∧
  ((7 ≤ length calls)%nat →
   complexity_factor (params (run_turns calls z)) = F32.c0_5).
Proof.
  intros Hempty Hone.
  destruct (run_turns_empty_history calls z Hempty) as [He Hc].
  rewrite Hc, Hone. split; [done|]. split.
  - intros Hlen.
    assert (Hcases : (length calls = 0 ∨ length calls = 1 ∨ length calls = 2 ∨
                      length calls = 3 ∨ length calls = 4 ∨ length calls = 5 ∨
                      length calls = 6)%nat) by lia.
    destruct Hcases as [->|[->|[->|[->|[->|[->| ->]]]]]]; by vm_compute.
  - intros Hlen. replace (length calls) with (7 + (length calls - 7))%nat by lia.
    apply decay_reaches_floor.
Qed.

Section Reachable.
Context (powf : float32 → float32 → float32) (logf : float32 → float32).
Context (std_sort : list (Z * float32) → list (Z * float32)).

Lemma reachable_fields z :
  reachable powf logf std_sort z →
  engagement_modifier (params z) = F32.one ∧
  pattern_strength (params z) = F32.one ∧
  turn_frequencies (conv_state z) = ∅ ∧
  recent_lengths (conv_state z) = [].
Proof.
  induction 1 as [vs|vocab z Hz IH|role mood vocab z Hz IH].
  - done.
  - destruct (initialize_frame powf logf std_sort vocab z) as (_&_&_&_&-> & ->).
    exact IH.
  - destruct IH as (He&Hp&Ht&Hr).
    destruct (update_context_empty_history role mood vocab z Hr) as [Hr' _].
    unfold update_context in *.
    cbn [params conv_state set_context update_complexity_factor update_conv_state
         engagement_modifier pattern_strength turn_frequencies] in *.
    done.
Qed.

(** X9: in every object that calls of [initialize] and [update_context]
    produce from a default-constructed one, [engagement_modifier] and
    [pattern_strength] are still 1.0 and [turn_frequencies] is still
    empty, since no member function writes them.  So the pattern step of
    [accelerate_logits] changes nothing, the role boost is 0.75 before
    step 10 and 0.5 from then on, and the dialogue boost is 0.4. *)
Theorem reachable_adaptive_constants z :
  reachable powf logf std_sort z →
  engagement_modifier (params z) = F32.one ∧
  pattern_strength (params z) = F32.one ∧
  turn_frequencies (conv_state z) = ∅ ∧
  (∀ logits, apply_conversation_patterns z logits = logits) ∧
  (∀ context_length,
     role_boost z context_length = if context_length <? 10 then F32.lit 3 4 else F32.c0_5) ∧
  dialogue_boost z = F32.c0_4.
Proof.
  intros Hz. destruct (reachable_fields z Hz) as (He&Hp&Ht&_).
  repeat split; try done.
  - intros logits. unfold apply_conversation_patterns. by rewrite Ht, map_to_list_empty.
  - intros c. unfold role_boost. rewrite He. by destruct (c <? 10).
  - unfold dialogue_boost. by rewrite Hp.
Qed.
End Reachable.

Lemma fold_left_length_preserved {A X} (step : list A → X → list A) (xs : list X)
    (lg : list A) :
  (∀ lg x, length (step lg x) = length lg) →
  length (fold_left step xs lg) = length lg.
Proof.
  intros Hstep. revert lg. induction xs as [|x xs IH]; intros lg; cbn [fold_left]; [done|].
  by rewrite IH, Hstep.
Qed.

(** [accelerate_logits] never changes the length of the logit
    buffer. *)
Lemma accelerate_logits_length z (logits : list float32)
    context_length min_tokens_remaining :
  length (accelerate_logits z logits context_length min_tokens_remaining)
  = length logits.
Proof.
  unfold accelerate_logits. destruct (initialized z); cbn [negb]; [|done].
  unfold apply_conversation_patterns, dialogue_flow, suppress_dialogue_enders,
    boost_dialogue_enders, apply_base_bias.
  rewrite fold_left_length_preserved.
  2:{ intros lg x. destruct (F32.ltb F32.c0_1 x.2); [apply upd_length|done]. }
  destruct (F32.ltb (completion_ratio min_tokens_remaining) F32.c0_6).
  - rewrite fold_left_length_preserved.
    2:{ intros lg x. case_decide; [apply upd_length|done]. }
    rewrite !fold_left_length_preserved; try done; try (intros; apply upd_length).
    intros lg x. destruct (base_logit_bias z !! Z.to_nat x); [apply upd_length|done].
  - rewrite !fold_left_length_preserved; try done; try (intros; apply upd_length).
    intros lg x. destruct (base_logit_bias z !! Z.to_nat x); [apply upd_length|done].
Qed.

(** X10: [main] hands the name of the chosen NPC to [update_context] as
    the role.  None of the three names is a key of the role table, so for
    every NPC of the program the role-matched set is empty after the
    call, for every mood and vocabulary. *)
Theorem npc_names_match_no_role (npc : Engine.NPCProfile) (mood : string) vocab z :
  npc ∈ Engine.NPCS →
  get_role_keywords (Engine.name npc) = [] ∧
  current_role_tokens (update_context (Engine.name npc) mood vocab z) = ∅.
Proof.
  intros Hnpc.
  assert (Hkw : get_role_keywords (Engine.name npc) = []).
  { unfold Engine.NPCS in Hnpc.
    repeat (apply elem_of_cons in Hnpc as [->|Hnpc]; [by vm_compute|]).
    by apply elem_of_nil in Hnpc. }
  split; [done|]. apply set_eq. intros t.
  rewrite update_context_role, Hkw. set_solver.
Qed.

(** * zipfEngine.cpp: the choice of the mode *)

Lemma mode_allowed_spec (m : string) (modes : list string) :
  Engine.mode_allowed m modes = true ↔ m ∈ modes.
Proof.
  unfold Engine.mode_allowed. rewrite existsb_exists. split.
  - intros (x&Hx&Heq). apply String.eqb_eq in Heq as ->. by apply list_elem_of_In.
  - intros Hm. exists m. split; [by apply list_elem_of_In|apply String.eqb_refl].
Qed.

Lemma pick_mode_in_allowed npc state (user_input m : string) :
  Engine.pick_mode_for_npc npc state user_input = Some m → m ∈ Engine.allowed_modes npc.
Proof.
  unfold Engine.pick_mode_for_npc.
  repeat match goal with
         | |- context [if ?b then _ else _] => destruct b eqn:?
         end;
    try (intros [= <-]; apply mode_allowed_spec;
         repeat match goal with
                | H : (_ && _)%bool = true |- _ => apply andb_true_iff in H as [? ?]
                end; done).
  all: destruct (Engine.allowed_modes npc) as [|m0 l]; [done|];
    intros [= <-]; left.
Qed.

Lemma pick_mode_some npc state (user_input : string) :
  Engine.allowed_modes npc ≠ [] →
  ∃ m, Engine.pick_mode_for_npc npc state user_input = Some m.
Proof.
  intros Hne. unfold Engine.pick_mode_for_npc.
  destruct (Engine.allowed_modes npc) as [|m0 l] eqn:Hal; [done|].
  repeat match goal with
         | |- context [if ?b then _ else _] => destruct b
         end; eauto.
Qed.

(** X11: the mode [pick_mode_for_npc] returns is always one of the modes
    the NPC allows, and the function returns a mode whenever the NPC
    allows at least one; only for an NPC with no allowed mode can the
    final [allowed_modes[0]] read outside the vector. *)
Theorem pick_mode_is_allowed npc state (user_input : string) :
  (∀ m, Engine.pick_mode_for_npc npc state user_input = Some m →
        m ∈ Engine.allowed_modes npc) ∧
  (Engine.allowed_modes npc ≠ [] →
   ∃ m, Engine.pick_mode_for_npc npc state user_input = Some m) ∧
  (Engine.pick_mode_for_npc npc state user_input = None → Engine.allowed_modes npc = []).
Proof.
  split; [|split].
  - intros m. apply pick_mode_in_allowed.
  - apply pick_mode_some.
  - intros Hnone. destruct (Engine.allowed_modes npc) as [|m0 l] eqn:Hal; [done|].
    destruct (pick_mode_some npc state user_input) as [m Hm]; [by rewrite Hal|].
    congruence.
Qed.

Lemma append_cons (x : ascii) (a b : string) :
  String.append (String x a) b = String x (String.append a b).
Proof. reflexivity. Qed.

Lemma append_assoc (a b c : string) :
  String.append (String.append a b) c = String.append a (String.append b c).
Proof. induction a as [|x a IH]; [done|]. by rewrite !append_cons, IH. Qed.

Lemma append_empty_r (a : string) : String.append a EmptyString = a.
Proof. induction a as [|x a IH]; [done|]. by rewrite append_cons, IH. Qed.

Lemma engine_to_lower_append (a b : string) :
  Engine.to_lower (String.append a b)
  = String.append (Engine.to_lower a) (Engine.to_lower b).
Proof.
  induction a as [|x a IH]; [done|].
  rewrite append_cons. cbn [Engine.to_lower]. by rewrite append_cons, IH.
Qed.

Lemma occurs_in_append_l (kw a b : string) :
  occurs_in kw a → occurs_in kw (String.append a b).
Proof.
  intros (pre&post&->). exists pre, (String.append post b).
  by rewrite !append_assoc.
Qed.

Lemma occurs_in_append_r (kw a b : string) :
  occurs_in kw b → occurs_in kw (String.append a b).
Proof.
  intros (pre&post&->). exists (String.append a pre), post.
  by rewrite !append_assoc.
Qed.

Lemma contains_spec (s kw : string) :
  Engine.contains s kw = true ↔ occurs_in kw s.
Proof. unfold Engine.contains, str_find. apply find_from_spec. Qed.

(** X12: the threat override.  When one of the words threaten, kill,
    harm, attack occurs, in any letter case and possibly inside a longer
    word, in the user input or in the recent action, and the NPC allows
    the mode rude, the mode is rude whatever the relationship is. *)
Theorem threat_forces_rude npc state (user_input kw : string) :
  kw ∈ ["threaten"; "kill"; "harm"; "attack"]%string →
  occurs_in kw (Engine.to_lower user_input) ∨
  occurs_in kw (Engine.to_lower (Engine.recent_action state)) →
  "rude"%string ∈ Engine.allowed_modes npc →
  Engine.pick_mode_for_npc npc state user_input = Some "rude"%string.
Proof.
  intros Hkw Hocc Hrude.
  assert (Hin : occurs_in kw
    (Engine.to_lower (String.append user_input
                        (String.append " " (Engine.recent_action state))))).
  { rewrite !engine_to_lower_append. destruct Hocc as [H|H].
    - by apply occurs_in_append_l.
    - by apply occurs_in_append_r, occurs_in_append_r. }
  apply contains_spec in Hin. apply mode_allowed_spec in Hrude.
  unfold Engine.pick_mode_for_npc. rewrite Hrude.
  repeat (apply elem_of_cons in Hkw as [->|Hkw];
          [rewrite Hin; by rewrite ?orb_true_r|]).
  by apply elem_of_nil in Hkw.
Qed.

Lemma find_mode_spec (name : string) (modes : list Engine.PersonalityMode) m :
  Engine.find_mode name modes = Some m → m ∈ modes ∧ Engine.mode_name m = name.
Proof.
  induction modes as [|m0 modes IH]; cbn; [done|].
  destruct (String.eqb_spec (Engine.mode_name m0) name) as [Heq|Hne].
  - intros [= <-]. split; [left|done].
  - intros H. destruct (IH H). split; [by right|done].
Qed.

Lemma get_mode_by_name_in_table (name : string) :
  Engine.get_mode_by_name name ∈ Engine.ALL_PERSONALITY_MODES.
Proof.
  unfold Engine.get_mode_by_name.
  destruct (Engine.find_mode name Engine.ALL_PERSONALITY_MODES) as [m|] eqn:Hm.
  - by apply find_mode_spec in Hm as [? _].
  - left.
Qed.

(** X13: for each of the three NPCs of the program, whatever the game
    state and the input, [pick_mode_for_npc] returns a mode name that
    [get_mode_by_name] finds in the mode table (the fallback to the first
    mode is not taken) and that is a key of the mood keyword table of
    [update_context] (its keyword list is not empty). *)
Theorem npc_mode_is_known npc state (user_input : string) :
  npc ∈ Engine.NPCS →
  ∃ m, Engine.pick_mode_for_npc npc state user_input = Some m ∧
       Engine.mode_name (Engine.get_mode_by_name m) = m ∧
       get_mood_keywords m ≠ [].
Proof.
  intros Hnpc.
  assert (Hne : Engine.allowed_modes npc ≠ []).
  { unfold Engine.NPCS in Hnpc.
    repeat (apply elem_of_cons in Hnpc as [->|Hnpc]; [done|]).
    by apply elem_of_nil in Hnpc. }
  destruct (pick_mode_some npc state user_input Hne) as [m Hm].
  exists m. split; [done|].
  apply pick_mode_in_allowed in Hm.
  unfold Engine.NPCS in Hnpc.
  repeat (apply elem_of_cons in Hnpc as [->|Hnpc];
          [cbn in Hm;
           repeat (apply elem_of_cons in Hm as [->|Hm]; [by vm_compute|]);
           by apply elem_of_nil in Hm|]).
  by apply elem_of_nil in Hnpc.
Qed.

(** * zipfEngine.cpp: the token budget of a turn *)

Lemma completion_ratio_range (remaining : Z) :
  1 ≤ remaining ≤ 200 →
  F32.ltb (completion_ratio remaining) F32.zero = false ∧
  F32.ltb (completion_ratio remaining) F32.one = true.
Proof.
  intros Hr.
  assert (Hall : forallb (λ r, negb (F32.ltb (completion_ratio r) F32.zero)
                               && F32.ltb (completion_ratio r) F32.one)
                         (seqZ 1 200) = true) by (by vm_compute).
  rewrite forallb_forall in Hall. specialize (Hall remaining).
  rewrite <- list_elem_of_In, elem_of_seqZ in Hall.
  assert (Hin : 1 ≤ remaining < 1 + 200) by lia.
  apply Hall, andb_true_iff in Hin as [H1 H2].
  by apply negb_true_iff in H1.
Qed.

Lemma completion_ratio_late (remaining : Z) :
  1 ≤ remaining ≤ 80 →
  F32.ltb (completion_ratio remaining) F32.c0_6 = false.
Proof.
  intros Hr.
  assert (Hall : forallb (λ r, negb (F32.ltb (completion_ratio r) F32.c0_6))
                         (seqZ 1 80) = true) by (by vm_compute).
  rewrite forallb_forall in Hall. specialize (Hall remaining).
  rewrite <- list_elem_of_In, elem_of_seqZ in Hall.
  apply negb_true_iff, Hall. lia.
Qed.

(** X14: the budget [main] derives from a mode.  For every mode name the
    turn's minimum is below its maximum, and the maximum is at most the
    constant 200 of [accelerate_logits]; so at every step of the
    generation loop the remaining budget handed to [accelerate_logits] is
    between 1 and 200 and the completion ratio is at least 0 and below 1. *)
Theorem turn_budget_within_reference (name : string) (i : Z) :
  0 ≤ i < Engine.turn_max_tokens (Engine.get_mode_by_name name) →
  Engine.turn_min_tokens (Engine.get_mode_by_name name)
  < Engine.turn_max_tokens (Engine.get_mode_by_name name) ∧
  Engine.turn_max_tokens (Engine.get_mode_by_name name) ≤ MAX_RESPONSE_LENGTH ∧
  F32.ltb (completion_ratio (Engine.turn_max_tokens (Engine.get_mode_by_name name) - i))
          F32.zero = false ∧
  F32.ltb (completion_ratio (Engine.turn_max_tokens (Engine.get_mode_by_name name) - i))
          F32.one = true.
Proof.
  intros Hi. pose proof (get_mode_by_name_in_table name) as Hm.
  assert (Hb : Engine.turn_min_tokens (Engine.get_mode_by_name name)
               < Engine.turn_max_tokens (Engine.get_mode_by_name name)
               ∧ Engine.turn_max_tokens (Engine.get_mode_by_name name) ≤ 200).
  { unfold Engine.ALL_PERSONALITY_MODES in Hm.
    repeat (apply elem_of_cons in Hm as [->|Hm]; [by vm_compute|]).
    by apply elem_of_nil in Hm. }
  destruct Hb as [Hlt Hle]. split; [done|]. split; [done|].
  apply completion_ratio_range. lia.
Qed.

(** X15: a mode whose turn maximum is at most 80 tokens (rude and stoic
    in the table) never reaches the suppress branch of the dialogue-flow
    step: at every step of its generation loop the completion ratio is
    not below 0.6, and the step is the boost of the dialogue tokens. *)
Theorem short_modes_never_suppress (mode : Engine.PersonalityMode) (i : Z)
    z (logits : list float32) :
  Engine.turn_max_tokens mode ≤ 80 →
  0 ≤ i < Engine.turn_max_tokens mode →
  dialogue_flow z logits (Engine.turn_max_tokens mode - i)
  = boost_dialogue_enders z logits
      (F32.mul (dialogue_boost z)
               (completion_ratio (Engine.turn_max_tokens mode - i))).
Proof.
  intros Hmax Hi. unfold dialogue_flow.
  by rewrite completion_ratio_late by lia.
Qed.

(** * zipfEngine.cpp: [sanitize_token_text] *)

Lemma find_two_spaces_cons (c : ascii) (s : string) (pos : nat) :
  find_from "  " (String c s) pos
  = if (if Ascii.eqb " " c then starts_with " " s else false)
    then Some pos else find_from "  " s (S pos).
Proof. reflexivity. Qed.

Lemma starts_with_space_cons (c : ascii) (s : string) :
  starts_with " " (String c s) = Ascii.eqb " " c.
Proof. cbn [starts_with]. by destruct (Ascii.eqb " " c). Qed.

Lemma sanitize_from_invariant (input : string) (last_was_space : bool) (pos : nat) :
  (last_was_space = true →
   starts_with " " (Engine.sanitize_from input last_was_space) = false) ∧
  find_from "  " (Engine.sanitize_from input last_was_space) pos = None.
Proof.
  revert last_was_space pos. induction input as [|c rest IH]; intros b pos.
  { by cbn. }
  cbn [Engine.sanitize_from].
  destruct ((nat_of_ascii c =? 10)%nat
            || ((32 <=? nat_of_ascii c)%nat && (nat_of_ascii c <=? 126)%nat))%bool.
  - destruct (Ascii.eqb_spec c " "%char) as [->|Hne].
    + destruct b; [apply IH|]. split; [done|].
      destruct (IH true (S pos)) as [Hs Hf].
      rewrite find_two_spaces_cons. change (Ascii.eqb " " " ") with true.
      by rewrite (Hs eq_refl), Hf.
    + assert (Hc : Ascii.eqb " " c = false).
      { apply Ascii.eqb_neq. congruence. }
      split.
      * intros _. by rewrite starts_with_space_cons.
      * rewrite find_two_spaces_cons, Hc. apply IH.
  - change (Ascii.eqb " " " ") with true. destruct b; [apply IH|].
    split; [done|]. destruct (IH true (S pos)) as [Hs Hf].
    rewrite find_two_spaces_cons. change (Ascii.eqb " " " ") with true.
    by rewrite (Hs eq_refl), Hf.
Qed.

Lemma sanitize_from_plain (input : string) (b : bool) :
  Forall (λ c, plain_char c = true)
         (list_ascii_of_string (Engine.sanitize_from input b)).
Proof.
  revert b. induction input as [|c rest IH]; intros b; [by constructor|].
  cbn [Engine.sanitize_from].
  destruct ((nat_of_ascii c =? 10)%nat
            || ((32 <=? nat_of_ascii c)%nat && (nat_of_ascii c <=? 126)%nat))%bool eqn:Hv.
  - destruct (Ascii.eqb c " "); [destruct b|]; try apply IH;
      cbn [list_ascii_of_string]; constructor; try apply IH; exact Hv.
  - change (Ascii.eqb " " " ") with true. cbn match.
    destruct b; [apply IH|]. cbn [list_ascii_of_string]. constructor; [done|apply IH].
Qed.

Lemma sanitize_from_length (input : string) (b : bool) :
  (String.length (Engine.sanitize_from input b) ≤ String.length input)%nat.
Proof.
  revert b. induction input as [|c rest IH]; intros b; [done|].
  cbn [Engine.sanitize_from String.length].
  repeat match goal with
         | |- context [if ?x then _ else _] => destruct x
         end; cbn [String.length];
    try (pose proof (IH true)); try (pose proof (IH false)); lia.
Qed.

(** X16: the text [sanitize_token_text] returns holds only line feeds and
    printable ASCII characters, never has two spaces in a row, and is no
    longer than the input. *)
Theorem sanitize_token_text_clean (input : string) :
  Forall (λ c, plain_char c = true)
         (list_ascii_of_string (Engine.sanitize_token_text input)) ∧
  ¬ occurs_in "  " (Engine.sanitize_token_text input) ∧
  (String.length (Engine.sanitize_token_text input) ≤ String.length input)%nat.
Proof.
  unfold Engine.sanitize_token_text. split; [apply sanitize_from_plain|].
  split; [|apply sanitize_from_length].
  intros Hocc. apply (find_from_spec _ _ 0) in Hocc.
  destruct (sanitize_from_invariant input false 0) as [_ Hf]. by rewrite Hf in Hocc.
Qed.

Lemma sanitize_from_again (input : string) (b b' : bool) :
  (b' = true → b = true) →
  Engine.sanitize_from (Engine.sanitize_from input b) b' = Engine.sanitize_from input b.
Proof.
  revert b b'. induction input as [|c rest IH]; intros b b' Hb; [done|].
  cbn [Engine.sanitize_from].
  destruct ((nat_of_ascii c =? 10)%nat
            || ((32 <=? nat_of_ascii c)%nat && (nat_of_ascii c <=? 126)%nat))%bool eqn:Hv.
  - destruct (Ascii.eqb c " ") eqn:Hsp.
    + destruct b.
      * by apply IH.
      * destruct b'; [by specialize (Hb eq_refl)|].
        cbn [Engine.sanitize_from]. rewrite Hv, Hsp. f_equal. by apply IH.
    + cbn [Engine.sanitize_from]. rewrite Hv, Hsp. f_equal. by apply IH.
  - change (Ascii.eqb " " " ") with true. cbn match. destruct b.
    + by apply IH.
    + destruct b'; [by specialize (Hb eq_refl)|].
      cbn [Engine.sanitize_from]. change (nat_of_ascii " ") with 32%nat.
      cbn [Nat.eqb Nat.leb orb andb]. change (Ascii.eqb " " " ") with true. cbn match.
      f_equal. by apply IH.
Qed.

(** X17: [sanitize_token_text] is idempotent: a sanitized text is left
    as it is by a second pass. *)
Theorem sanitize_token_text_idempotent (input : string) :
  Engine.sanitize_token_text (Engine.sanitize_token_text input)
  = Engine.sanitize_token_text input.
Proof. unfold Engine.sanitize_token_text. by apply sanitize_from_again. Qed.


(** * zipfEngine.cpp: [truncate_at_forbidden_speaker] *)

Lemma append_length (a b : string) :
  String.length (String.append a b) = (String.length a + String.length b)%nat.
Proof.
  induction a as [|x a IH]; [done|].
  rewrite append_cons. cbn [String.length]. by rewrite IH.
Qed.

Lemma occurs_at_skip (kw s : string) (p : nat) :
  occurs_at kw s p ↔
  ∃ rest, Engine.str_skip p s = Some rest ∧ starts_with kw rest = true.
Proof.
  unfold occurs_at. revert s. induction p as [|p IH]; intros s; cbn [Engine.str_skip].
  - split.
    + intros (pre&post&->&Hl). destruct pre; [|done].
      exists (String.append kw post). split; [done|]. apply starts_with_spec. eauto.
    + intros (rest&[= ->]&Hs). apply starts_with_spec in Hs as [post ->].
      by exists EmptyString, post.
  - destruct s as [|c s].
    + split.
      * intros (pre&post&H&Hl). by destruct pre.
      * by intros (rest&?&_).
    + rewrite <- IH. split.
      * intros (pre&post&H&Hl). destruct pre as [|c' pre]; [done|].
        rewrite append_cons in H. injection H as -> ->. cbn in Hl.
        exists pre, post. split; [done|lia].
      * intros (pre&post&->&Hl). exists (String c pre), post. split; [done|].
        cbn. lia.
Qed.

(** [find_from] returns the first position where the keyword occurs. *)
Lemma find_from_first (kw s : string) (pos : nat) :
  match find_from kw s pos with
  | Some r => ∃ p, r = (pos + p)%nat ∧ occurs_at kw s p ∧
                   ∀ q, (q < p)%nat → ¬ occurs_at kw s q
  | None => ∀ q, ¬ occurs_at kw s q
  end.
Proof.
  revert pos. induction s as [|c s IH]; intros pos; cbn [find_from].
  - destruct (starts_with kw EmptyString) eqn:Hs.
    + exists 0%nat. split; [lia|]. split; [|intros q Hq; lia].
      apply occurs_at_skip. by exists EmptyString.
    + intros q Hq. apply occurs_at_skip in Hq as (rest&Hsk&Hst).
      destruct q; cbn in Hsk; [|done]. congruence.
  - destruct (starts_with kw (String c s)) eqn:Hs.
    + exists 0%nat. split; [lia|]. split; [|intros q Hq; lia].
      apply occurs_at_skip. by exists (String c s).
    + specialize (IH (S pos)). destruct (find_from kw s (S pos)) as [r|].
      * destruct IH as (p&->&Hocc&Hfirst). exists (S p). split; [lia|]. split.
        -- apply occurs_at_skip. by apply occurs_at_skip in Hocc.
        -- intros q Hq Hoc. apply occurs_at_skip in Hoc as (rest&Hsk&Hst).
           destruct q as [|q]; [cbn in Hsk; congruence|].
           apply (Hfirst q); [lia|]. apply occurs_at_skip. eauto.
      * intros q Hoc. apply occurs_at_skip in Hoc as (rest&Hsk&Hst).
        destruct q as [|q]; [cbn in Hsk; congruence|].
        apply (IH q). apply occurs_at_skip. eauto.
Qed.

Lemma str_find_at_1_first (s kw : string) :
  match Engine.str_find_at s kw 1 with
  | Some r => (1 ≤ r)%nat ∧ occurs_at kw s r ∧
              ∀ q, (1 ≤ q < r)%nat → ¬ occurs_at kw s q
  | None => ∀ q, (1 ≤ q)%nat → ¬ occurs_at kw s q
  end.
Proof.
  unfold Engine.str_find_at. destruct s as [|c s]; cbn [Engine.str_skip].
  - intros q Hq Hoc. apply occurs_at_skip in Hoc as (rest&Hsk&_).
    destruct q; [lia|done].
  - pose proof (find_from_first kw s 1) as H. destruct (find_from kw s 1) as [r|].
    + destruct H as (p&->&Hocc&Hfirst). split; [lia|]. split.
      * apply occurs_at_skip. by apply occurs_at_skip in Hocc.
      * intros q Hq Hoc. destruct q as [|q]; [lia|]. apply (Hfirst q); [lia|].
        apply occurs_at_skip. by apply occurs_at_skip in Hoc.
    + intros q Hq Hoc. destruct q as [|q]; [lia|]. apply (H q).
      apply occurs_at_skip. by apply occurs_at_skip in Hoc.
Qed.

(** The loop over the cues leaves in [cut] a position not after any
    occurrence of a cue past the first character. *)
Lemma cut_fold_spec (output : string) (cs : list string) (cut0 : option nat) :
  (∀ c0, cut0 = Some c0 → (1 ≤ c0)%nat) →
  (∀ c, fold_left (Engine.cut_step output) cs cut0 = Some c → (1 ≤ c)%nat) ∧
  (∀ c0, cut0 = Some c0 →
     ∃ c, fold_left (Engine.cut_step output) cs cut0 = Some c ∧ (c ≤ c0)%nat) ∧
  (∀ cue q, cue ∈ cs → (1 ≤ q)%nat → occurs_at cue output q →
     ∃ c, fold_left (Engine.cut_step output) cs cut0 = Some c ∧ (c ≤ q)%nat).
Proof.
  revert cut0. induction cs as [|cue cs IH]; intros cut0 H0; cbn [fold_left].
  - split; [done|]. split; [eauto|]. intros cue q Hin. by apply elem_of_nil in Hin.
  - pose proof (str_find_at_1_first output cue) as Hf.
    assert (H1 : ∀ c0, Engine.cut_step output cut0 cue = Some c0 → (1 ≤ c0)%nat).
    { unfold Engine.cut_step. destruct (Engine.str_find_at output cue 1) as [r|]; [|done].
      destruct Hf as [Hr _]. destruct cut0 as [c|].
      - destruct (r <? c)%nat; intros c0 [= <-]; [done|eauto].
      - by intros c0 [= <-]. }
    destruct (IH _ H1) as (Ha & Hb & Hc). split; [done|]. split.
    + intros c0 ->.
      assert (∃ c1, Engine.cut_step output (Some c0) cue = Some c1 ∧ (c1 ≤ c0)%nat)
        as (c1&Hc1&Hle).
      { unfold Engine.cut_step. destruct (Engine.str_find_at output cue 1) as [r|];
          [destruct (Nat.ltb_spec r c0)|]; eexists; (split; [done|lia]). }
      destruct (Hb c1 Hc1) as (c&?&?). exists c. split; [done|lia].
    + intros cue' q [->|Hin]%elem_of_cons Hq Hoc; [|by apply Hc with cue'].
      assert (∃ c1, Engine.cut_step output cut0 cue = Some c1 ∧ (c1 ≤ q)%nat)
        as (c1&Hc1&Hle).
      { unfold Engine.cut_step. destruct (Engine.str_find_at output cue 1) as [r|].
        - destruct Hf as (_&_&Hfirst). assert (r ≤ q)%nat.
          { destruct (Nat.le_gt_cases r q); [done|]. exfalso.
            apply (Hfirst q); [lia|done]. }
          destruct cut0 as [c|]; [destruct (Nat.ltb_spec r c)|];
            eexists; (split; [done|lia]).
        - exfalso. by apply (Hf q). }
      destruct (Hb c1 Hc1) as (c&?&?). exists c. split; [done|lia].
Qed.

Lemma is_prefix_refl (s : string) : is_prefix s s.
Proof. exists EmptyString. by rewrite append_empty_r. Qed.

Lemma is_prefix_trans (a b c : string) : is_prefix a b → is_prefix b c → is_prefix a c.
Proof.
  intros [r1 ->] [r2 ->]. exists (String.append r1 r2). by rewrite append_assoc.
Qed.

Lemma str_take_prefix (n : nat) (s : string) : is_prefix (Engine.str_take n s) s.
Proof.
  unfold is_prefix. revert s.
  induction n as [|n IH]; intros [|c s]; cbn [Engine.str_take]; try by eexists.
  destruct (IH s) as [rest H]. exists rest. by rewrite append_cons, <- H.
Qed.

Lemma str_take_length (n : nat) (s : string) :
  (String.length (Engine.str_take n s) ≤ n)%nat.
Proof.
  revert s. induction n as [|n IH]; intros [|c s]; cbn [Engine.str_take String.length];
    try lia.
  specialize (IH s). lia.
Qed.

Lemma str_take_nonempty (n : nat) (s : string) :
  (1 ≤ n)%nat → s ≠ EmptyString → Engine.str_take n s ≠ EmptyString.
Proof. destruct n, s; cbn [Engine.str_take]; (done || lia). Qed.

Lemma occurs_at_prefix (kw r s : string) (q : nat) :
  is_prefix r s → occurs_at kw r q → occurs_at kw s q.
Proof.
  intros [rest ->] (pre&post&->&Hl). exists pre, (String.append post rest).
  split; [|done]. by rewrite !append_assoc.
Qed.

Lemma occurs_at_length (kw s : string) (q : nat) :
  occurs_at kw s q → (q + String.length kw ≤ String.length s)%nat.
Proof. intros (pre&post&->&<-). rewrite !append_length. lia. Qed.

Lemma cues_nonempty (state : Engine.GameState) (cue : string) :
  cue ∈ Engine.cues state → (1 ≤ String.length cue)%nat.
Proof.
  unfold Engine.cues. intros H.
  repeat (apply elem_of_cons in H as [->|H]; [rewrite ?append_length; cbn; lia|]).
  by apply elem_of_nil in H.
Qed.

(** The text left by the cut at the first cue; the sentence step keeps an
    initial part of it. *)
Lemma truncate_prefix_of_cut (output : string) (state : Engine.GameState) :
  is_prefix (Engine.truncate_at_forbidden_speaker output state)
    (match fold_left (Engine.cut_step output) (Engine.cues state) None with
     | Some c => Engine.str_take c output
     | None => output
     end).
Proof.
  unfold Engine.truncate_at_forbidden_speaker.
  set (result := match fold_left _ _ _ with Some c => _ | None => _ end).
  destruct (Engine.str_find_last_of result Engine.sentence_ends) as [last_period|];
    [|apply is_prefix_refl].
  destruct (F64.ltb _ _); [apply str_take_prefix|apply is_prefix_refl].
Qed.

Lemma truncate_prefix (output : string) (state : Engine.GameState) :
  is_prefix (Engine.truncate_at_forbidden_speaker output state) output.
Proof.
  eapply is_prefix_trans; [apply truncate_prefix_of_cut|].
  destruct (fold_left _ _ _); [apply str_take_prefix|apply is_prefix_refl].
Qed.

(** X18: [truncate_at_forbidden_speaker] returns an initial part of its
    input, and never turns a non-empty text into the empty one. *)
Theorem truncate_keeps_initial_part (output : string) (state : Engine.GameState) :
  is_prefix (Engine.truncate_at_forbidden_speaker output state) output ∧
  (output = EmptyString ↔
   Engine.truncate_at_forbidden_speaker output state = EmptyString).
Proof.
  split; [apply truncate_prefix|]. split.
  { intros ->. destruct (truncate_prefix EmptyString state) as [rest H].
    destruct (Engine.truncate_at_forbidden_speaker EmptyString state); [done|].
    by rewrite append_cons in H. }
  intros Ht. destruct (decide (output = EmptyString)) as [|Hne]; [done|]. exfalso.
  revert Ht. unfold Engine.truncate_at_forbidden_speaker.
  destruct (cut_fold_spec output (Engine.cues state) None) as (Hcut&_&_); [done|].
  set (result := match fold_left _ _ _ with Some c => _ | None => _ end).
  assert (Hres : result ≠ EmptyString).
  { unfold result. destruct (fold_left _ _ _) as [c|]; [|done].
    apply str_take_nonempty; [by apply Hcut|done]. }
  destruct (Engine.str_find_last_of result Engine.sentence_ends) as [last_period|];
    [|done].
  destruct (F64.ltb _ _); [|done].
  apply str_take_nonempty; [lia|done].
Qed.

Lemma truncate_no_cue (output : string) (state : Engine.GameState)
    (cue : string) (q : nat) :
  cue ∈ Engine.cues state → (1 ≤ q)%nat →
  ¬ occurs_at cue (Engine.truncate_at_forbidden_speaker output state) q.
Proof.
  intros Hin Hq Hoc.
  apply (occurs_at_prefix _ _ _ _ (truncate_prefix_of_cut output state)) in Hoc.
  destruct (cut_fold_spec output (Engine.cues state) None) as (_&_&Hcut); [done|].
  pose proof (cues_nonempty state cue Hin) as Hlen.
  destruct (fold_left _ _ _) as [c|] eqn:Hfold.
  - pose proof (occurs_at_length _ _ _ Hoc) as Hl.
    pose proof (str_take_length c output) as Ht.
    apply (occurs_at_prefix _ _ _ _ (str_take_prefix c output)) in Hoc.
    destruct (Hcut cue q Hin Hq Hoc) as (c'&[= <-]&Hle). lia.
  - by destruct (Hcut cue q Hin Hq Hoc) as (c'&?&_).
Qed.

(** X19: past its first character, the text [truncate_at_forbidden_speaker]
    returns holds none of the speaker cues, the player's own name followed
    by a colon included; the search the function itself runs for a cue
    finds nothing in its result. *)
Theorem truncate_removes_cues (output : string) (state : Engine.GameState)
    (cue : string) :
  cue ∈ Engine.cues state →
  Engine.str_find_at (Engine.truncate_at_forbidden_speaker output state) cue 1 = None ∧
  ∀ q, (1 ≤ q)%nat →
       ¬ occurs_at cue (Engine.truncate_at_forbidden_speaker output state) q.
Proof.
  intros Hin. split; [|intros q Hq; by apply truncate_no_cue].
  pose proof (str_find_at_1_first
                (Engine.truncate_at_forbidden_speaker output state) cue) as Hf.
  destruct (Engine.str_find_at _ cue 1) as [r|]; [|done].
  destruct Hf as (Hr&Hoc&_). by apply truncate_no_cue in Hoc.
Qed.

(** * zipfEngine.cpp: the clean-up of the reply in [main] *)

Lemma str_pop_back_prefix (s : string) : is_prefix (Engine.str_pop_back s) s.
Proof.
  induction s as [|c s IH]; [by exists EmptyString|].
  cbn [Engine.str_pop_back]. destruct s as [|d s]; [by exists (String c EmptyString)|].
  destruct IH as [rest H]. exists rest. rewrite append_cons. by rewrite <- H.
Qed.

Lemma str_back_pop (c : ascii) (s : string) :
  ∃ l, Engine.str_back (String c s) = Some l ∧
       (Engine.str_pop_back (String c s) = EmptyString → s = EmptyString ∧ l = c).
Proof.
  revert c. induction s as [|d s IH]; intros c; [by exists c|].
  destruct (IH d) as (l&Hl&_). exists l. split; [exact Hl|].
  intros H. cbn [Engine.str_pop_back] in H. discriminate H.
Qed.

(** X20: the clean-up prints an empty reply for exactly one text, the one
    made of two quotation marks; every other text, the empty one and the
    lone quotation mark included, gives a non-empty reply. *)
Theorem clean_output_empty (output : string) :
  Engine.clean_output output = EmptyString ↔
  output = String dquote (String dquote EmptyString).
Proof.
  split; [|by intros ->].
  unfold Engine.clean_output.
  destruct (String.eqb output "" || String.eqb output (String dquote ""))%bool eqn:E.
  { intros H. vm_compute in H. discriminate H. }
  destruct output as [|c rest]; [discriminate E|].
  destruct (Ascii.eqb_spec c dquote) as [->|Hne].
  - destruct rest as [|d rest]; [discriminate E|].
    destruct (str_back_pop d rest) as (l&Hl&Hp). rewrite Hl.
    destruct (Ascii.eqb_spec l dquote) as [->|]; [|done].
    intros H. by destruct (Hp H) as [-> ->].
  - destruct (str_back_pop c rest) as (l&Hl&Hp). rewrite Hl.
    destruct (Ascii.eqb_spec l dquote) as [->|]; [|done].
    intros H. destruct (Hp H) as [_ ?]. congruence.
Qed.

(** The clean-up either prints the fallback sentence or a part of the
    text that starts at its first or second character. *)
Lemma clean_output_part (output : string) :
  Engine.clean_output output = "I... I'm not sure what to say."%string ∨
  ∃ pre post,
    output = String.append pre (String.append (Engine.clean_output output) post) ∧
    (String.length pre ≤ 1)%nat.
Proof.
  unfold Engine.clean_output.
  destruct (String.eqb output "" || String.eqb output (String dquote ""))%bool eqn:E.
  { by left. }
  right. destruct output as [|c rest]; [discriminate E|].
  destruct (Ascii.eqb_spec c dquote) as [->|Hne].
  - exists (String dquote EmptyString).
    destruct (Engine.str_back rest) as [l|]; [destruct (Ascii.eqb l dquote)|].
    + destruct (str_pop_back_prefix rest) as [post H]. exists post.
      split; [|cbn; lia]. rewrite append_cons. f_equal. exact H.
    + exists EmptyString. split; [|cbn; lia]. by rewrite append_empty_r.
    + exists EmptyString. split; [|cbn; lia]. by rewrite append_empty_r.
  - exists EmptyString.
    destruct (Engine.str_back (String c rest)) as [l|]; [destruct (Ascii.eqb l dquote)|].
    + destruct (str_pop_back_prefix (String c rest)) as [post H]. exists post.
      split; [exact H|cbn; lia].
    + exists EmptyString. split; [|cbn; lia]. by rewrite append_empty_r.
    + exists EmptyString. split; [|cbn; lia]. by rewrite append_empty_r.
Qed.

Lemma list_ascii_of_string_append (a b : string) :
  list_ascii_of_string (String.append a b)
  = list_ascii_of_string a ++ list_ascii_of_string b.
Proof.
  induction a as [|x a IH]; [done|].
  rewrite append_cons. cbn [list_ascii_of_string]. by rewrite IH.
Qed.

Lemma occurs_at_in (kw s : string) (q : nat) : occurs_at kw s q → occurs_in kw s.
Proof. intros (pre&post&->&_). by exists pre, post. Qed.

Lemma occurs_in_suffix (a b s : string) :
  occurs_in (String.append a b) s → occurs_in b s.
Proof.
  intros (pre&post&->). exists (String.append pre a), post.
  by rewrite !append_assoc.
Qed.

Lemma occurs_at_part (kw pre mid post : string) (q : nat) :
  occurs_at kw mid q →
  occurs_at kw (String.append pre (String.append mid post)) (String.length pre + q).
Proof.
  intros (pre'&post'&->&<-). exists (String.append pre pre'), (String.append post' post).
  split; [by rewrite !append_assoc|apply append_length].
Qed.

(** X21: the reply [main] prints holds only line feeds and printable ASCII
    characters and never two spaces in a row, whatever bytes the model
    produced and whichever branch the truncation and the clean-up took. *)
Theorem reply_text_clean (raw : string) (state : Engine.GameState) :
  Forall (λ c, plain_char c = true)
         (list_ascii_of_string (Engine.reply_text raw state)) ∧
  ¬ occurs_in "  " (Engine.reply_text raw state).
Proof.
  unfold Engine.reply_text, Engine.sanitize_token_text.
  destruct (truncate_prefix (Engine.sanitize_from raw false) state) as [rest Ht].
  destruct (clean_output_part
              (Engine.truncate_at_forbidden_speaker (Engine.sanitize_from raw false) state))
    as [->|(pre&post&Hc&_)].
  - split.
    + cbn [list_ascii_of_string]. repeat (constructor; [reflexivity|]). constructor.
    + intros H. apply (find_from_spec _ _ 0) in H. vm_compute in H. discriminate H.
  - rewrite Hc in Ht. split.
    + pose proof (sanitize_from_plain raw false) as Hp.
      rewrite Ht, !list_ascii_of_string_append in Hp.
      apply Forall_app in Hp as [Hp _]. apply Forall_app in Hp as [_ Hp].
      by apply Forall_app in Hp as [Hp _].
    + intros H. destruct (sanitize_from_invariant raw false 0) as [_ Hf].
      assert (Hocc : occurs_in "  " (Engine.sanitize_from raw false)).
      { rewrite Ht. by apply occurs_in_append_l, occurs_in_append_r, occurs_in_append_l. }
      apply (find_from_spec _ _ 0) in Hocc. by rewrite Hf in Hocc.
Qed.

(** X22: past its first character, the reply [main] prints holds none of
    the speaker cues: the clean-up after the truncation brings none
    back. *)
Theorem reply_text_no_cue (raw : string) (state : Engine.GameState)
    (cue : string) (q : nat) :
  cue ∈ Engine.cues state → (1 ≤ q)%nat →
  ¬ occurs_at cue (Engine.reply_text raw state) q.
Proof.
  intros Hin Hq. unfold Engine.reply_text.
  set (t := Engine.truncate_at_forbidden_speaker (Engine.sanitize_token_text raw) state).
  destruct (clean_output_part t) as [->|(pre&post&Hc&_)].
  - intros Hoc%occurs_at_in. revert Hin. unfold Engine.cues. intros Hin.
    repeat (apply elem_of_cons in Hin as [->|Hin];
            [apply (find_from_spec _ _ 0) in Hoc; vm_compute in Hoc; discriminate Hoc|]).
    apply elem_of_cons in Hin as [->|Hin]; [|by apply elem_of_nil in Hin].
    apply occurs_in_suffix, (find_from_spec _ _ 0) in Hoc.
    vm_compute in Hoc. discriminate Hoc.
  - intros Hoc. apply (occurs_at_part _ pre _ post) in Hoc. rewrite <- Hc in Hoc.
    revert Hoc. apply truncate_no_cue; [done|lia].
Qed.


(** * Instances of the further properties at concrete inputs *)

(** The set sizes at [small_vocab] (6 tokens): no COMMON token, one RARE
    token. *)
Lemma common_rare_sizes_witness :
  for_all_libm (λ powf logf,
    size (common_tokens
            (initialize powf logf insertion_sort small_vocab (default_accelerator 0)))
    = 0%nat ∧
    size (rare_tokens
            (initialize powf logf insertion_sort small_vocab (default_accelerator 0)))
    = 1%nat).
Proof.
  intros powf logf.
  apply (common_rare_sizes powf logf insertion_sort small_vocab).
  - change (n_tokens small_vocab) with 6. unfold int_max. lia.
  - apply insertion_sort_perm.
  - change (n_tokens small_vocab) with 6. unfold int_max. lia.
Defined.

(** Token 4 of [small_vocab], whose text ends in an exclamation mark. *)
Lemma punctuation_dialogue_by_text_witness :
  for_all_libm (λ powf logf,
    (4 ∈ punctuation
           (initialize powf logf insertion_sort small_vocab (default_accelerator 0)) ↔
     0 ≤ 4 < 6 ∧ ∃ c, c ∈ punct_chars ∧ has_char c (token_get_text small_vocab 4)) ∧
    (4 ∈ dialogue_tokens
           (initialize powf logf insertion_sort small_vocab (default_accelerator 0)) ↔
     0 ≤ 4 < 6 ∧ has_char dquote (token_get_text small_vocab 4))).
Proof.
  intros powf logf.
  apply (punctuation_dialogue_by_text powf logf insertion_sort small_vocab).
  - change (n_tokens small_vocab) with 6. unfold int_max. lia.
  - apply insertion_sort_perm.
Defined.

(** The token of rank 2 of [small_vocab] is token 2. *)
Lemma bias_of_rank_witness :
  for_all_libm (λ powf logf,
    length (base_logit_bias
              (initialize powf logf insertion_sort small_vocab (default_accelerator 0)))
    = 6%nat ∧
    base_logit_bias
      (initialize powf logf insertion_sort small_vocab (default_accelerator 0)) !! 2%nat
    = Some (logf (F32.div F32.one
                    (powf (F32.add (F32.of_int 2) F32.one) F32.c0_3)))).
Proof.
  intros powf logf.
  apply (bias_of_rank powf logf insertion_sort small_vocab
           ltac:(change (n_tokens small_vocab) with 6; unfold int_max; lia)
           (insertion_sort_perm _) (default_accelerator 0) 2
           (2, token_get_score small_vocab 2)).
  by vm_compute.
Defined.

(** The flag byte 16 of [flagged_accelerator] after [initialize] on
    [small_vocab]. *)
Lemma initialize_keeps_old_flags_witness :
  for_all_libm (λ powf logf,
    token_flags (initialize powf logf insertion_sort small_vocab flagged_accelerator)
      !! 0%nat
    = Some (Z.lor 16
              (category_mask
                 (initialize powf logf insertion_sort small_vocab flagged_accelerator) 0)) ∧
    Z.land (Z.lor 16
              (category_mask
                 (initialize powf logf insertion_sort small_vocab flagged_accelerator) 0))
           16 = 16).
Proof.
  intros powf logf.
  apply (initialize_keeps_old_flags powf logf insertion_sort small_vocab
           flagged_accelerator 0 16).
  - reflexivity.
  - change (wrap_int (n_tokens small_vocab)) with 6. lia.
Defined.

(** Two calls of [initialize] on [small_vocab]. *)
Lemma initialize_idempotent_witness :
  for_all_libm (λ powf logf,
    initialize powf logf insertion_sort small_vocab
      (initialize powf logf insertion_sort small_vocab (default_accelerator 0))
    = initialize powf logf insertion_sort small_vocab (default_accelerator 0)).
Proof.
  intros powf logf.
  apply (initialize_idempotent powf logf insertion_sort small_vocab).
  - change (n_tokens small_vocab) with 6. unfold int_max. lia.
  - apply insertion_sort_perm.
Defined.

(** Token 5 of [small_vocab], the one of the last rank. *)
Lemma appropriate_after_initialize_witness :
  for_all_libm (λ powf logf,
    5 ∈ rare_tokens
          (initialize powf logf insertion_sort small_vocab (default_accelerator 0)) →
    is_contextually_appropriate
      (initialize powf logf insertion_sort small_vocab (default_accelerator 0)) 5
    = false).
Proof.
  intros powf logf.
  apply (appropriate_after_initialize powf logf insertion_sort small_vocab).
  - change (n_tokens small_vocab) with 6. unfold int_max. lia.
  - apply insertion_sort_perm.
  - change (n_tokens small_vocab) with 6. unfold int_max. lia.
Defined.

(** Seven turns from a default-constructed object. *)
Lemma complexity_factor_decays_witness :
  recent_lengths (conv_state (run_turns seven_turns (default_accelerator 6))) = [] ∧
  complexity_factor (params (run_turns seven_turns (default_accelerator 6))) = F32.c0_5.
Proof.
  destruct (complexity_factor_decays seven_turns (default_accelerator 6))
    as (Hlen & _ & Hfloor); [reflexivity|reflexivity|].
  split; [exact Hlen|]. apply Hfloor. cbn. lia.
Defined.

(** The object after [initialize] and one [update_context]. *)
Lemma reachable_adaptive_constants_witness :
  for_all_libm (λ powf logf,
    engagement_modifier
      (params (update_context "guard" "friendly" small_vocab
                 (initialize powf logf insertion_sort small_vocab (default_accelerator 0))))
    = F32.one ∧
    dialogue_boost
      (update_context "guard" "friendly" small_vocab
         (initialize powf logf insertion_sort small_vocab (default_accelerator 0)))
    = F32.c0_4).
Proof.
  intros powf logf.
  destruct (reachable_adaptive_constants powf logf insertion_sort
              (update_context "guard" "friendly" small_vocab
                 (initialize powf logf insertion_sort small_vocab (default_accelerator 0))))
    as (He & _ & _ & _ & _ & Hd); [|by split].
  apply reach_update_context, reach_initialize, reach_default.
Defined.

(** The NPC Mira: her name is no role. *)
Lemma npc_names_match_no_role_witness :
  get_role_keywords "Mira" = [] ∧
  current_role_tokens
    (update_context "Mira" "friendly" small_vocab (default_accelerator 6)) = ∅.
Proof.
  apply (npc_names_match_no_role mira "friendly" small_vocab (default_accelerator 6)).
  apply (list_elem_of_lookup_2 _ 1). reflexivity.
Defined.

(** Krackle allows the mode rude; the input holds the word kill in upper
    case. *)
Lemma threat_forces_rude_witness :
  Engine.pick_mode_for_npc krackle stranger_state "I will KILL you" = Some "rude"%string.
Proof.
  apply (threat_forces_rude krackle stranger_state "I will KILL you" "kill").
  - apply (list_elem_of_lookup_2 _ 1). reflexivity.
  - left. apply contains_spec. by vm_compute.
  - apply mode_allowed_spec. by vm_compute.
Defined.

(** Mira with a stranger who greets her. *)
Lemma npc_mode_is_known_witness :
  ∃ m, Engine.pick_mode_for_npc mira stranger_state "hello" = Some m ∧
       Engine.mode_name (Engine.get_mode_by_name m) = m ∧
       get_mood_keywords m ≠ [].
Proof.
  apply (npc_mode_is_known mira stranger_state "hello").
  apply (list_elem_of_lookup_2 _ 1). reflexivity.
Defined.

(** The last step of a stoic turn (60 tokens). *)
Lemma turn_budget_within_reference_witness :
  Engine.turn_min_tokens (Engine.get_mode_by_name "stoic")
  < Engine.turn_max_tokens (Engine.get_mode_by_name "stoic") ∧
  Engine.turn_max_tokens (Engine.get_mode_by_name "stoic") ≤ MAX_RESPONSE_LENGTH ∧
  F32.ltb (completion_ratio (Engine.turn_max_tokens (Engine.get_mode_by_name "stoic") - 59))
          F32.zero = false ∧
  F32.ltb (completion_ratio (Engine.turn_max_tokens (Engine.get_mode_by_name "stoic") - 59))
          F32.one = true.
Proof.
  apply (turn_budget_within_reference "stoic" 59).
  change (Engine.turn_max_tokens (Engine.get_mode_by_name "stoic")) with 60. lia.
Defined.

(** The first step of a stoic turn. *)
Lemma short_modes_never_suppress_witness :
  dialogue_flow one_token_accelerator [F32.zero]
    (Engine.turn_max_tokens (Engine.get_mode_by_name "stoic") - 0)
  = boost_dialogue_enders one_token_accelerator [F32.zero]
      (F32.mul (dialogue_boost one_token_accelerator)
               (completion_ratio
                  (Engine.turn_max_tokens (Engine.get_mode_by_name "stoic") - 0))).
Proof.
  apply (short_modes_never_suppress (Engine.get_mode_by_name "stoic") 0).
  - change (Engine.turn_max_tokens (Engine.get_mode_by_name "stoic")) with 60. lia.
  - change (Engine.turn_max_tokens (Engine.get_mode_by_name "stoic")) with 60. lia.
Defined.

(** A reply in which the model went on to speak for the user. *)
Lemma truncate_removes_cues_witness :
  Engine.str_find_at
    (Engine.truncate_at_forbidden_speaker "Well met. User: hi" stranger_state)
    "User:" 1 = None.
Proof.
  apply (truncate_removes_cues "Well met. User: hi" stranger_state "User:").
  apply (list_elem_of_lookup_2 _ 1). reflexivity.
Defined.

(** A reply in which the model went on to speak for the player. *)
Lemma reply_text_no_cue_witness :
  ¬ occurs_at "Aria:" (Engine.reply_text "Well met. Aria: hi" stranger_state) 10.
Proof.
  apply (reply_text_no_cue "Well met. Aria: hi" stranger_state "Aria:" 10).
  - apply (list_elem_of_lookup_2 _ 8). reflexivity.
  - lia.
Defined.
